(** * AtomicLock: a spin lock over one [std::atomic<bool>]

    Shallow embedding of [src/AtomicLock.h].  The four methods are written
    as interaction trees over the atomic operations the C++ text performs on
    the member [ThisLock]; the operations get their meaning from [handle],
    which acts on the lock object.  A thread is an interaction tree, one
    atomic operation is one step, and a program with several threads is an
    interleaving of such steps.

    The only object the methods share is [ThisLock].  The coherence rules
    of C++11 order the operations on one atomic object compatibly with the
    program order of each thread, every load returning the latest store in
    that order and every compare-exchange reading the value it replaces.
    What can be observed of the methods is thus an interleaving of their
    atomic steps.  The [memory_order] arguments are recorded in the
    operations and do not change the value of the cell: they order the
    accesses to the data the lock protects, which is not part of this
    development.  [std::this_thread::yield] is a step that leaves the lock
    alone. *)

From ITree Require Import ITree Eq.Shallow.
From Stdlib Require Import List Bool Arith Lia.
Import ListNotations.
Import ITreeNotations.
Local Open Scope itree_scope.

(* ================================================================== *)
(** ** Data model *)
(* ================================================================== *)

(** [const bool UNLOCKED = false, LOCKED = true;] *)
Definition UNLOCKED : bool := false.
Definition LOCKED : bool := true.

(** [std::memory_order] *)
Variant memory_order : Set :=
| memory_order_relaxed
| memory_order_consume
| memory_order_acquire
| memory_order_release
| memory_order_acq_rel
| memory_order_seq_cst.

(** [class AtomicLock { std::atomic<bool> ThisLock; ... }] *)
Record AtomicLock : Set := { ThisLock : bool }.

(** [AtomicLock() : ThisLock(UNLOCKED) {}] *)
Definition AtomicLock_ctor : AtomicLock := {| ThisLock := UNLOCKED |}.

(** The operations the methods perform: the three members of
    [std::atomic<bool>] used on [ThisLock], and [std::this_thread::yield].
    [CompareExchangeStrong] answers with the boolean result and with the
    value left in the by-reference argument [expected]. *)
Variant atomicE : Type -> Type :=
| Load (mo : memory_order) : atomicE bool
| Store (v : bool) (mo : memory_order) : atomicE unit
| CompareExchangeStrong (expected desired : bool)
    (success failure : memory_order) : atomicE (bool * bool)
| Yield : atomicE unit.

(** Meaning of one operation on the lock object. *)
Definition handle {X} (e : atomicE X) (l : AtomicLock) : AtomicLock * X :=
  match e in atomicE X return AtomicLock * X with
  | Load _ => (l, ThisLock l)
  | Store v _ => ({| ThisLock := v |}, tt)
  | CompareExchangeStrong expected desired _ _ =>
      if Bool.eqb (ThisLock l) expected
      then ({| ThisLock := desired |}, (true, expected))
      else (l, (false, ThisLock l))
  | Yield => (l, tt)
  end.

(* ================================================================== *)
(** ** The methods *)
(* ================================================================== *)

(** [inline bool AtomicLock::try_lock()]: the right operand of [&&] is
    evaluated only when the load returned [false]. *)
Definition try_lock : itree atomicE bool :=
  let _Unlocked := UNLOCKED in
  held <- ITree.trigger (Load memory_order_acquire) ;;
  if negb held
  then r <- ITree.trigger (CompareExchangeStrong _Unlocked LOCKED
                             memory_order_acquire memory_order_relaxed) ;;
       Ret (fst r)
  else Ret false.

(** [inline void AtomicLock::wait()]: [while (load) yield;].  One pass of
    the loop answers [inl tt] to go round again and [inr tt] to leave. *)
Definition wait_body (_ : unit) : itree atomicE (unit + unit) :=
  held <- ITree.trigger (Load memory_order_acquire) ;;
  if held : bool
  then ITree.trigger Yield ;; Ret (inl tt)
  else Ret (inr tt).

Definition wait : itree atomicE unit := ITree.iter wait_body tt.

(** [inline void AtomicLock::lock()]: [do { ... } while (true);].  The
    [return] inside the two [if]s leaves the loop ([inr tt]); every other
    path reaches the [yield] at the end of the body and goes round again. *)
Definition lock_body (_ : unit) : itree atomicE (unit + unit) :=
  held <- ITree.trigger (Load memory_order_acquire) ;;
  acquired <-
    (if negb held
     then let _Unlocked := UNLOCKED in
          r <- ITree.trigger (CompareExchangeStrong _Unlocked LOCKED
                                memory_order_acquire memory_order_relaxed) ;;
          Ret (fst r)
     else Ret false) ;;
  if acquired : bool
  then Ret (inr tt)
  else ITree.trigger Yield ;; Ret (inl tt).

Definition lock : itree atomicE unit := ITree.iter lock_body tt.

(** [inline void AtomicLock::unlock()] *)
Definition unlock : itree atomicE unit :=
  ITree.trigger (Store UNLOCKED memory_order_release).

(** [~AtomicLock() { unlock(); }] *)
Definition AtomicLock_dtor : itree atomicE unit := unlock.

(* ================================================================== *)
(** ** Steps of one thread *)
(* ================================================================== *)

(** What a step did, as seen from outside the thread. *)
Variant action : Set :=
| ALoop                                   (* back edge of a loop *)
| ALoad (mo : memory_order) (v : bool)    (* load that returned [v] *)
| AStore (v : bool) (mo : memory_order)
| ACas (expected desired : bool) (success failure : memory_order)
       (ok : bool)                        (* compare-exchange, its result *)
| AYield.

Definition action_of {X} (e : atomicE X) : X -> action :=
  match e in atomicE X return X -> action with
  | Load mo => fun v => ALoad mo v
  | Store v mo => fun _ => AStore v mo
  | CompareExchangeStrong ex de s f => fun r => ACas ex de s f (fst r)
  | Yield => fun _ => AYield
  end.

Variant outcome (R : Type) : Type :=
| Returned (r : R)
| Stepped (a : action) (l' : AtomicLock) (t' : itree atomicE R).

Arguments Returned {R} r.
Arguments Stepped {R} a l' t'.

(** One step of thread [t] when the lock object is [l]. *)
Definition thread_step {R} (t : itree atomicE R) (l : AtomicLock) : outcome R :=
  match observe t with
  | RetF r => Returned r
  | TauF t' => Stepped ALoop l t'
  | VisF e k => let (l', x) := handle e l in Stepped (action_of e x) l' (k x)
  end.

(** One recorded step: the lock object found, what was done, the lock
    object left. *)
Record step : Set := { before : AtomicLock; what : action; after : AtomicLock }.

(** [returned t] is the value a finished thread came back with. *)
Definition returned {R} (t : itree atomicE R) : option R :=
  match observe t with
  | RetF r => Some r
  | _ => None
  end.

(** A thread running alone: the lock object is touched by nobody else
    between two of its steps.  The answer has the steps performed, the
    final lock object and the returned value. *)
Fixpoint run (fuel : nat) {R} (t : itree atomicE R) (l : AtomicLock)
  : option (list step * AtomicLock * R) :=
  match fuel with
  | 0 => None
  | S fuel' =>
      match thread_step t l with
      | Returned r => Some ([], l, r)
      | Stepped a l' t' =>
          match run fuel' t' l' with
          | Some (tr, l'', r) =>
              Some ({| before := l; what := a; after := l' |} :: tr, l'', r)
          | None => None
          end
      end
  end.

(** A thread running among others: [env] lists the lock object as the
    thread finds it at each of its steps, whatever the other threads made
    of it in between.  The run stops when [env] is used up or the thread
    has returned; the answer has the steps performed and the thread as it
    stands then. *)
Fixpoint run_with (env : list AtomicLock) {R} (t : itree atomicE R)
  : list step * itree atomicE R :=
  match env with
  | [] => ([], t)
  | l :: env' =>
      match thread_step t l with
      | Returned _ => ([], t)
      | Stepped a l' t' =>
          let (tr, u) := run_with env' t' in
          ({| before := l; what := a; after := l' |} :: tr, u)
      end
  end.

(* ================================================================== *)
(** ** Several threads on one lock *)
(* ================================================================== *)

Record config (R : Type) : Type :=
  { cell : AtomicLock; pool : list (itree atomicE R) }.

Arguments cell {R} c.
Arguments pool {R} c.

(** A step of the whole program: which thread moved, and its step. *)
Record event : Set := { tid : nat; did : step }.

Fixpoint update {A} (i : nat) (x : A) (xs : list A) {struct xs} : list A :=
  match xs, i with
  | [], _ => []
  | _ :: xs', 0 => x :: xs'
  | y :: xs', S i' => y :: update i' x xs'
  end.

(** Thread [i] takes its next step.  There is no step when the thread
    does not exist or has returned. *)
Definition sched_step {R} (i : nat) (c : config R) : option (event * config R) :=
  match nth_error (pool c) i with
  | None => None
  | Some t =>
      match thread_step t (cell c) with
      | Returned _ => None
      | Stepped a l' t' =>
          Some ({| tid := i;
                   did := {| before := cell c; what := a; after := l' |} |},
                {| cell := l'; pool := update i t' (pool c) |})
      end
  end.

(** The interleaving chosen by the schedule [s], a list of thread
    numbers. *)
Fixpoint sched_run {R} (s : list nat) (c : config R)
  : option (list event * config R) :=
  match s with
  | [] => Some ([], c)
  | i :: s' =>
      match sched_step i c with
      | None => None
      | Some (e, c') =>
          match sched_run s' c' with
          | Some (tr, c'') => Some (e :: tr, c'')
          | None => None
          end
      end
  end.

(** Code that uses the lock: a finite sequence of method calls, which may
    branch on the result of [try_lock].  Nothing obliges it to call
    [unlock] only when it holds the lock. *)
Inductive client : Type :=
| Done
| CallLock (k : client)
| CallTryLock (k : bool -> client)
| CallWait (k : client)
| CallUnlock (k : client).

Fixpoint calls (p : client) : itree atomicE unit :=
  match p with
  | Done => Ret tt
  | CallLock k => lock ;; calls k
  | CallTryLock k => b <- try_lock ;; calls (k b)
  | CallWait k => wait ;; calls k
  | CallUnlock k => unlock ;; calls k
  end.

(* ================================================================== *)
(** ** Vocabulary of the specification *)
(* ================================================================== *)

(** The steps the methods take, by the lock object [l] they find. *)

(** [ThisLock.load(memory_order_acquire)] *)
Definition load_step (l : AtomicLock) : step :=
  {| before := l;
     what := ALoad memory_order_acquire (ThisLock l);
     after := l |}.

(** [ThisLock.compare_exchange_strong(_Unlocked, LOCKED, acquire, relaxed)]:
    it succeeds on an unlocked object, and leaves the object locked in
    both cases. *)
Definition cas_step (l : AtomicLock) : step :=
  {| before := l;
     what := ACas UNLOCKED LOCKED memory_order_acquire memory_order_relaxed
               (negb (ThisLock l));
     after := {| ThisLock := LOCKED |} |}.

(** [ThisLock.store(UNLOCKED, memory_order_release)] *)
Definition store_step (l : AtomicLock) : step :=
  {| before := l;
     what := AStore UNLOCKED memory_order_release;
     after := {| ThisLock := UNLOCKED |} |}.

(** The successful compare-exchange: the lock goes from free to held. *)
Definition acquire_step : step := cas_step {| ThisLock := UNLOCKED |}.

Definition ends_with_acquire (tr : list step) : Prop :=
  exists tr0, tr = tr0 ++ [acquire_step].

(** The two transitions of the state machine. *)
Definition acquire_transition (s : step) : Prop :=
  ThisLock (before s) = UNLOCKED /\ ThisLock (after s) = LOCKED.

Definition release_transition (s : step) : Prop :=
  ThisLock (before s) = LOCKED /\ ThisLock (after s) = UNLOCKED.

(** [always P t]: whatever the other threads do to the lock object, each
    step [t] takes satisfies [P]. *)
Definition always (P : step -> Prop) {R} (t : itree atomicE R) : Prop :=
  forall env, Forall P (fst (run_with env t)).

(** A recorded step agrees with the meaning of its operation. *)
Definition sound (s : step) : Prop :=
  match what s with
  | ALoop | AYield => after s = before s
  | ALoad _ v => v = ThisLock (before s) /\ after s = before s
  | AStore v _ => after s = {| ThisLock := v |}
  | ACas expected desired _ _ ok =>
      ok = Bool.eqb (ThisLock (before s)) expected /\
      after s = if ok then {| ThisLock := desired |} else before s
  end.

(** The operations that occur in the four methods: loads with acquire
    order, stores of [UNLOCKED] ([false]) with release order,
    compare-exchanges from [UNLOCKED] to [LOCKED] ([true]), yields and loop
    back edges. *)
Definition protocol (a : action) : bool :=
  match a with
  | ALoop | AYield => true
  | ALoad memory_order_acquire _ => true
  | AStore false memory_order_release => true
  | ACas false true memory_order_acquire memory_order_relaxed _ => true
  | _ => false
  end.

(** Steps that only look at the lock object. *)
Definition read_only (a : action) : bool :=
  match a with
  | ALoop | AYield => true
  | ALoad memory_order_acquire _ => true
  | _ => false
  end.

Definition is_load (s : step) : bool :=
  match what s with ALoad _ _ => true | _ => false end.

Definition is_cas (s : step) : bool :=
  match what s with ACas _ _ _ _ _ => true | _ => false end.

(** At most one load and one compare-exchange, and nothing else. *)
Definition one_load_one_cas (tr : list step) : Prop :=
  length (filter is_load tr) <= 1 /\
  length (filter is_cas tr) <= 1 /\
  length tr = length (filter is_load tr) + length (filter is_cas tr).

(** Consecutive steps on the lock object: each one finds what the one
    before left. *)
Fixpoint chained (l : AtomicLock) (tr : list step) (l' : AtomicLock) : Prop :=
  match tr with
  | [] => l = l'
  | s :: tr' => before s = l /\ chained (after s) tr' l'
  end.

(** All the threads of a configuration have returned. *)
Definition finished {R} (c : config R) : bool :=
  forallb (fun t => match returned t with Some _ => true | None => false end)
          (pool c).

(** [n] rounds of [lock(); unlock();]. *)
Fixpoint cycles (n : nat) : itree atomicE unit :=
  match n with
  | 0 => Ret tt
  | S n' => lock ;; unlock ;; cycles n'
  end.

(** The steps of one uncontended round. *)
Definition cycle_steps : list step :=
  [ load_step {| ThisLock := UNLOCKED |};
    acquire_step;
    store_step {| ThisLock := LOCKED |} ].

(** The steps of thread [i] in an interleaving. *)
Definition steps_of (i : nat) (tr : list event) : list step :=
  map did (filter (fun e => tid e =? i) tr).

(** Two threads racing on a new lock with [try_lock]. *)
Definition race : config bool :=
  {| cell := AtomicLock_ctor; pool := [try_lock; try_lock] |}.

(** What is required of a configuration [c] of the race reached by the
    schedule [s]: the schedule is short, the two calls have not both
    succeeded, when both have returned exactly one has succeeded and the
    lock is held, and as long as one has not returned a step is possible. *)
Definition race_ok (s : list nat) (c : config bool) : Prop :=
  length s <= 4 /\
  map returned (pool c) <> [Some true; Some true] /\
  (forall r0 r1, map returned (pool c) = [Some r0; Some r1] ->
                 xorb r0 r1 = true /\ ThisLock (cell c) = LOCKED) /\
  (finished c = false -> exists i e c', sched_step i c = Some (e, c')).

(** The lock object a thread running alone leaves. *)
Definition state_after (fuel : nat) {R} (t : itree atomicE R) (l : AtomicLock)
  : option AtomicLock :=
  match run fuel t l with
  | Some (_, l', _) => Some l'
  | None => None
  end.

(* ================================================================== *)
(** ** Ownership, and the shape of the loops *)
(* ================================================================== *)

(** A thread holds the lock from its successful compare-exchange to its
    next store.  [holds_next h s] is whether the thread holds the lock
    after its step [s], when [h] tells whether it did before. *)
Definition holds_next (h : bool) (s : step) : bool :=
  match what s with
  | ACas _ _ _ _ ok => if ok then true else h
  | AStore _ _ => false
  | _ => h
  end.

Definition holds_from (h : bool) (tr : list step) : bool :=
  fold_left holds_next tr h.

(** Whether a thread holds the lock after the steps [tr], from the
    start. *)
Definition holds (tr : list step) : bool := holds_from false tr.

(** In the steps [tr] of a thread every store is made while the thread
    holds the lock. *)
Fixpoint bracketed (h : bool) (tr : list step) : Prop :=
  match tr with
  | [] => True
  | s :: tr' =>
      match what s with AStore _ _ => h = true | _ => True end /\
      bracketed (holds_next h s) tr'
  end.

(** Code that uses the lock as it is meant to be: [lock] and [try_lock]
    are called by a thread that does not hold the lock, [unlock] by a
    thread that does.  After a [try_lock] the thread holds the lock when
    the result is [true]. *)
Fixpoint disciplined (holding : bool) (p : client) : Prop :=
  match p with
  | Done => True
  | CallLock k => holding = false /\ disciplined true k
  | CallTryLock k =>
      holding = false /\ disciplined true (k true) /\ disciplined false (k false)
  | CallWait k => disciplined holding k
  | CallUnlock k => holding = true /\ disciplined false k
  end.

(** Steps that change neither the lock object nor who holds it: any step
    but a store and a successful compare-exchange. *)
Definition keeps (a : action) : bool :=
  match a with
  | AStore _ _ => false
  | ACas _ _ _ _ ok => negb ok
  | _ => true
  end.

Definition neutral (s : step) : Prop :=
  keeps (what s) = true /\ after s = before s.

(** At most one thread holds the lock, and the lock is locked exactly
    when a thread holds it. *)
Definition exclusive (h : nat -> bool) (l : AtomicLock) : Prop :=
  (forall i j, h i = true -> h j = true -> i = j) /\
  ((exists i, h i = true) <-> ThisLock l = LOCKED).

(** A thread that stores only while it holds the lock, and performs only
    the operations of the four methods. *)
Definition well_behaved (h : bool) {R} (t : itree atomicE R) : Prop :=
  (forall env, bracketed h (fst (run_with env t))) /\
  always (fun s => protocol (what s) = true) t.

(** A step that leaves the lock object alone. *)
Definition idle (a : action) (l : AtomicLock) : step :=
  {| before := l; what := a; after := l |}.

(** One round of the loop of [lock] that does not take the lock: the
    load saw it locked, or the compare-exchange found it locked; then the
    yield and the back edge. *)
Inductive failed_round : list step -> Prop :=
| round_held l l1 l2 :
    ThisLock l = LOCKED ->
    failed_round [load_step l; idle AYield l1; idle ALoop l2]
| round_lost l l' l1 l2 :
    ThisLock l = UNLOCKED -> ThisLock l' = LOCKED ->
    failed_round [load_step l; cas_step l'; idle AYield l1; idle ALoop l2].

(** One round of the loop of [wait]: the load saw the lock locked; then
    the yield and the back edge. *)
Inductive spin_round : list step -> Prop :=
| spin_held l l1 l2 :
    ThisLock l = LOCKED ->
    spin_round [load_step l; idle AYield l1; idle ALoop l2].

(** [n] calls to [try_lock] in a row, with their results. *)
Fixpoint try_locks (n : nat) : itree atomicE (list bool) :=
  match n with
  | 0 => Ret []
  | S n' => b <- try_lock ;; bs <- try_locks n' ;; Ret (b :: bs)
  end.

(** A thread that takes and releases the lock again and again:
    [for (;;) { lock(); unlock(); }]. *)
Definition lock_unlock_forever : itree atomicE unit :=
  ITree.iter (fun _ : unit => lock ;; unlock ;; Ret (inl tt)) tt.

(** A thread calling [lock] beside such a thread, on a new lock. *)
Definition starving : config unit :=
  {| cell := AtomicLock_ctor; pool := [lock; lock_unlock_forever] |}.

(** The second thread takes the lock, the first goes once round its
    loop, the second releases the lock and goes back to the start. *)
Definition starving_round : list nat := [1; 1; 0; 0; 0; 1; 1].

(* ================================================================== *)
(** ** Steps of composed threads *)
(* ================================================================== *)

Lemma thread_step_bind {R T} (t : itree atomicE R) (f : R -> itree atomicE T) l :
  thread_step (ITree.bind t f) l =
  match thread_step t l with
  | Returned r => thread_step (f r) l
  | Stepped a l' t' => Stepped a l' (ITree.bind t' f)
  end.
Proof.
  unfold thread_step. rewrite observe_bind.
  destruct (observe t) as [r | t' | X e k]; try reflexivity.
  cbn. destruct (handle e l). reflexivity.
Qed.

Lemma thread_step_sound {R} (t : itree atomicE R) l a l' t' :
  thread_step t l = Stepped a l' t' ->
  sound {| before := l; what := a; after := l' |}.
Proof.
  unfold thread_step, sound.
  destruct (observe t) as [r | u | X e k]; [discriminate | |].
  - intros [= <- <- _]. reflexivity.
  - destruct e; cbn.
    + intros [= <- <- _]. now split.
    + intros [= <- <- _]. reflexivity.
    + destruct (Bool.eqb (ThisLock l) expected) eqn:E;
        intros [= <- <- _]; cbn; now rewrite ?E.
    + intros [= <- <- _]. reflexivity.
Qed.

Lemma returned_step {R} (t : itree atomicE R) l :
  returned t = match thread_step t l with
               | Returned r => Some r
               | Stepped _ _ _ => None
               end.
Proof.
  unfold returned, thread_step.
  destruct (observe t) as [r | u | X e k]; try reflexivity.
  now destruct (handle e l).
Qed.

Lemma trace_cons {R} l env (t : itree atomicE R) :
  fst (run_with (l :: env) t) =
  match thread_step t l with
  | Returned _ => []
  | Stepped a l' t' =>
      {| before := l; what := a; after := l' |} :: fst (run_with env t')
  end.
Proof.
  cbn [run_with]. destruct (thread_step t l); [reflexivity|].
  now destruct (run_with env t').
Qed.

Lemma final_cons {R} l env (t : itree atomicE R) :
  snd (run_with (l :: env) t) =
  match thread_step t l with
  | Returned _ => t
  | Stepped _ _ t' => snd (run_with env t')
  end.
Proof.
  cbn [run_with]. destruct (thread_step t l); [reflexivity|].
  now destruct (run_with env t').
Qed.

Lemma run_more fuel {R} (t : itree atomicE R) l res :
  run fuel t l = Some res -> forall fuel', fuel <= fuel' -> run fuel' t l = Some res.
Proof.
  revert t l res. induction fuel as [|fuel IH]; intros t l res H fuel' Hle;
    [discriminate|].
  destruct fuel' as [|fuel']; [lia|]. cbn [run] in *.
  destruct (thread_step t l) as [r | a l' t']; [assumption|].
  destruct (run fuel t' l') as [[[tr l''] r]|] eqn:E; [|discriminate].
  rewrite (IH _ _ _ E fuel') by lia. assumption.
Qed.

Lemma run_bind {R T} (t : itree atomicE R) (f : R -> itree atomicE T)
      fuel1 fuel2 l tr1 l1 r tr2 l2 r2 :
  run fuel1 t l = Some (tr1, l1, r) ->
  run fuel2 (f r) l1 = Some (tr2, l2, r2) ->
  run (fuel1 + fuel2) (ITree.bind t f) l = Some (tr1 ++ tr2, l2, r2).
Proof.
  revert t l tr1. induction fuel1 as [|fuel1 IH]; intros t l tr1 H1 H2;
    [discriminate|].
  cbn [run Nat.add] in *. rewrite thread_step_bind.
  destruct (thread_step t l) as [r' | a l' t'].
  - injection H1 as <- <- <-. cbn [app].
    change (run (S (fuel1 + fuel2)) (f r') l = Some (tr2, l2, r2)).
    eapply run_more; [exact H2 | lia].
  - destruct (run fuel1 t' l') as [[[tr l''] r'']|] eqn:E; [|discriminate].
    injection H1 as <- <- <-.
    now rewrite (IH _ _ _ E H2).
Qed.

(** A thread running alone is a thread running among others that leave
    the lock object alone. *)
Lemma run_is_run_with fuel {R} (t : itree atomicE R) l tr l' r :
  run fuel t l = Some (tr, l', r) ->
  chained l tr l' /\
  fst (run_with (map before tr ++ [l']) t) = tr /\
  returned (snd (run_with (map before tr ++ [l']) t)) = Some r.
Proof.
  revert t l tr. induction fuel as [|fuel IH]; intros t l tr H; [discriminate|].
  cbn [run] in H.
  destruct (thread_step t l) as [r' | a l1 t'] eqn:E.
  - injection H as <- <- <-. cbn [map app].
    rewrite trace_cons, final_cons, E, (returned_step t l), E. now repeat split.
  - destruct (run fuel t' l1) as [[[tr' l''] r'']|] eqn:E'; [|discriminate].
    injection H as <- <- <-. cbn [map app before chained after].
    rewrite trace_cons, final_cons, E.
    destruct (IH _ _ _ E') as (Hc & Ht & Hr).
    repeat split; [assumption | now rewrite Ht | assumption].
Qed.

(* ================================================================== *)
(** ** Properties of every step of a thread *)
(* ================================================================== *)

Section Always.

Variable P : step -> Prop.

Lemma always_step {R} {t : itree atomicE R} {l a l' t'} :
  always P t -> thread_step t l = Stepped a l' t' ->
  P {| before := l; what := a; after := l' |} /\ always P t'.
Proof.
  intros H E; split.
  - specialize (H [l]). rewrite trace_cons, E in H. now inversion H.
  - intros env. specialize (H (l :: env)). rewrite trace_cons, E in H.
    now inversion H.
Qed.

Lemma always_bind {R T} (f : R -> itree atomicE T) :
  (forall r, always P (f r)) ->
  forall t : itree atomicE R, always P t -> always P (ITree.bind t f).
Proof.
  intros Hf t Ht env. revert t Ht.
  induction env as [|l env IH]; intros t Ht; [constructor|].
  rewrite trace_cons, thread_step_bind.
  destruct (thread_step t l) as [r | a l' t'] eqn:E.
  - specialize (Hf r (l :: env)). now rewrite trace_cons in Hf.
  - destruct (always_step Ht E) as [Hs Ht']. constructor; [exact Hs | apply IH, Ht'].
Qed.

Lemma always_ret {R} (r : R) : always P (Ret r : itree atomicE R).
Proof. intros [|l env]; constructor. Qed.

Lemma always_and (Q : step -> Prop) {R} (t : itree atomicE R) :
  always P t -> always Q t -> always (fun s => P s /\ Q s) t.
Proof.
  intros HP HQ env. specialize (HP env). specialize (HQ env).
  induction HP; inversion HQ; constructor; auto.
Qed.

End Always.

Arguments always_step {P R t l a l' t'}.

Lemma always_sound {R} (t : itree atomicE R) : always sound t.
Proof.
  intros env. revert t. induction env as [|l env IH]; intros t; [constructor|].
  rewrite trace_cons. destruct (thread_step t l) as [r | a l' t'] eqn:E;
    constructor; [eapply thread_step_sound, E | apply IH].
Qed.

(* ================================================================== *)
(** ** The methods, step by step *)
(* ================================================================== *)

(** The next step of a thread whose code is known: [look] when the step
    depends on the lock object it finds, [move_on] when it does not.  The
    first goal is the run that stops here. *)
Ltac unroll :=
  rewrite ?trace_cons, ?final_cons; cbn [length]; cbn -[run_with].

Ltac move_on env :=
  destruct env as [| ? env]; [cbn | unroll].

Ltac look env :=
  destruct env as [| [[|]] env]; [cbn | unroll | unroll].

Lemma ends_with_acquire_cons s tr :
  ends_with_acquire tr -> ends_with_acquire (s :: tr).
Proof. intros [tr0 ->]. exists (s :: tr0). reflexivity. Qed.

Lemma ends_with_acquire_last tr s :
  ends_with_acquire (tr ++ [s]) -> s = acquire_step.
Proof.
  intros [tr0 H]. apply app_inj_tail in H. now destruct H.
Qed.

Create HintDb lock.
#[local] Hint Resolve ends_with_acquire_cons : lock.
#[local] Hint Constructors Forall : lock.

(** [lock]: every step is a load, a compare-exchange from [UNLOCKED] to
    [LOCKED], a yield or a loop back edge, and a run that has returned ends
    with the successful compare-exchange. *)
Lemma lock_runs n :
  forall env, length env <= n ->
  Forall (fun s => protocol (what s) = true) (fst (run_with env lock)) /\
  (returned (snd (run_with env lock)) <> None ->
   ends_with_acquire (fst (run_with env lock))).
Proof.
  induction n as [|n IH]; intros env Hn.
  - destruct env; [|cbn in Hn; lia]. cbn. split; [constructor | congruence].
  - look env.
    + split; [constructor | congruence].
    + (* the load saw LOCKED: yield, then round again *)
      move_on env; [split; [auto with lock | congruence]|].
      move_on env; [split; [auto with lock | congruence]|].
      destruct (IH env) as [Hp Hr]; [cbn in Hn; lia|].
      split; [auto 6 with lock | auto 6 with lock].
    + (* the load saw UNLOCKED: compare-exchange *)
      look env; [split; [auto with lock | congruence] | |].
      * (* lost the race: yield, then round again *)
        move_on env; [split; [auto with lock | congruence]|].
        move_on env; [split; [auto with lock | congruence]|].
        destruct (IH env) as [Hp Hr]; [cbn in Hn; lia|].
        split; [auto 7 with lock | auto 7 with lock].
      * (* won: return *)
        move_on env.
        -- split; [auto with lock|]. intros _. now exists [load_step {| ThisLock := UNLOCKED |}].
        -- split; [auto with lock|]. intros _. now exists [load_step {| ThisLock := UNLOCKED |}].
Qed.

Lemma lock_protocol : always (fun s => protocol (what s) = true) lock.
Proof. intros env. now apply (lock_runs (length env)). Qed.

Lemma lock_returns_after_acquire env :
  returned (snd (run_with env lock)) <> None ->
  ends_with_acquire (fst (run_with env lock)).
Proof. now apply (lock_runs (length env)). Qed.

(** [wait]: every step is a load, a yield or a loop back edge. *)
Lemma wait_runs n :
  forall env, length env <= n ->
  Forall (fun s => read_only (what s) = true) (fst (run_with env wait)).
Proof.
  induction n as [|n IH]; intros env Hn.
  - destruct env; [|cbn in Hn; lia]. constructor.
  - look env; [constructor | |].
    + move_on env; [auto with lock|].
      move_on env; [auto with lock|].
      assert (Forall (fun s => read_only (what s) = true)
                     (fst (run_with env wait))) by (apply IH; cbn in Hn; lia).
      auto 6 with lock.
    + move_on env; auto with lock.
Qed.

Lemma wait_read_only : always (fun s => read_only (what s) = true) wait.
Proof. intros env. now apply (wait_runs (length env)). Qed.

(** [try_lock]: a load, then at most one compare-exchange, then the
    return.  These are all its runs. *)
Lemma try_lock_runs env :
  (env = [] /\
   fst (run_with env try_lock) = [] /\
   returned (snd (run_with env try_lock)) = None) \/
  (exists l env', env = l :: env' /\ ThisLock l = LOCKED /\
   fst (run_with env try_lock) = [load_step l] /\
   returned (snd (run_with env try_lock)) = Some false) \/
  (exists l, env = [l] /\ ThisLock l = UNLOCKED /\
   fst (run_with env try_lock) = [load_step l] /\
   returned (snd (run_with env try_lock)) = None) \/
  (exists l l' env', env = l :: l' :: env' /\ ThisLock l = UNLOCKED /\
   fst (run_with env try_lock) = [load_step l; cas_step l'] /\
   returned (snd (run_with env try_lock)) = Some (negb (ThisLock l'))).
Proof.
  look env; [now left | |].
  - right; left. exists {| ThisLock := true |}, env.
    move_on env; now repeat split.
  - right; right.
    look env.
    + left. exists {| ThisLock := false |}. now repeat split.
    + right. exists {| ThisLock := false |}, {| ThisLock := true |}, env.
      move_on env; now repeat split.
    + right. exists {| ThisLock := false |}, {| ThisLock := false |}, env.
      move_on env; now repeat split.
Qed.

Lemma try_lock_protocol : always (fun s => protocol (what s) = true) try_lock.
Proof.
  intros env.
  destruct (try_lock_runs env)
    as [(_ & -> & _) | [(l & ? & _ & _ & -> & _) |
       [(l & _ & _ & -> & _) | (l & l' & ? & _ & _ & -> & _)]]];
    repeat constructor.
Qed.

Lemma unlock_runs l env :
  fst (run_with (l :: env) unlock) = [store_step l] /\
  returned (snd (run_with (l :: env) unlock)) = Some tt.
Proof. unroll. move_on env; now split. Qed.

Lemma unlock_protocol : always (fun s => protocol (what s) = true) unlock.
Proof.
  intros [|l env]; [constructor|].
  destruct (unlock_runs l env) as [-> _]. repeat constructor.
Qed.

(** Code that uses the lock performs no other operation on it than
    those of the four methods. *)
Lemma calls_protocol p : always (fun s => protocol (what s) = true) (calls p).
Proof.
  induction p as [| k IH | k IH | k IH | k IH]; cbn [calls].
  - apply always_ret.
  - apply always_bind; [intros _; exact IH | exact lock_protocol].
  - apply always_bind; [exact IH | exact try_lock_protocol].
  - apply always_bind; [intros _; exact IH|].
    intros env. eapply Forall_impl; [|apply wait_read_only].
    intros s. cbn beta. now destruct (what s) as [| [] | | |].
  - apply always_bind; [intros _; exact IH | exact unlock_protocol].
Qed.

(* ================================================================== *)
(** ** Interleavings *)
(* ================================================================== *)

Lemma Forall_update {A} (P : A -> Prop) i x xs :
  Forall P xs -> P x -> Forall P (update i x xs).
Proof.
  intros H Hx. revert i. induction H as [|y ys Hy Hys IH]; intros i; cbn.
  - constructor.
  - destruct i; constructor; auto.
Qed.

Lemma Forall_nth_error {A} (P : A -> Prop) i x xs :
  Forall P xs -> nth_error xs i = Some x -> P x.
Proof.
  intros H E. apply nth_error_In in E. rewrite Forall_forall in H. auto.
Qed.

Lemma sched_step_inv {R} i (c : config R) e c' :
  sched_step i c = Some (e, c') ->
  exists t a l' t',
    nth_error (pool c) i = Some t /\
    thread_step t (cell c) = Stepped a l' t' /\
    e = {| tid := i; did := {| before := cell c; what := a; after := l' |} |} /\
    c' = {| cell := l'; pool := update i t' (pool c) |}.
Proof.
  unfold sched_step.
  destruct (nth_error (pool c) i) as [t|]; [|discriminate].
  destruct (thread_step t (cell c)) as [r | a l' t'] eqn:E; [discriminate|].
  intros [= <- <-]. now exists t, a, l', t'.
Qed.

Lemma sched_run_cons {R} i s (c : config R) tr c'' :
  sched_run (i :: s) c = Some (tr, c'') ->
  exists e c' tr', sched_step i c = Some (e, c') /\
                   sched_run s c' = Some (tr', c'') /\ tr = e :: tr'.
Proof.
  cbn [sched_run]. destruct (sched_step i c) as [[e c']|]; [|discriminate].
  destruct (sched_run s c') as [[tr' c3]|] eqn:E; [|discriminate].
  intros [= <- <-]. now exists e, c', tr'.
Qed.

(** What holds of every step of every thread holds of every step of
    the interleaving. *)
Lemma sched_run_always (P : step -> Prop) {R} s :
  forall (c : config R) tr c',
  Forall (always P) (pool c) ->
  sched_run s c = Some (tr, c') ->
  Forall P (map did tr).
Proof.
  induction s as [|i s IH]; intros c tr c' Hc H.
  - injection H as <- _. constructor.
  - apply sched_run_cons in H. destruct H as (e & c1 & tr' & Hs & Hr & ->).
    apply sched_step_inv in Hs. destruct Hs as (t & a & l' & t' & Hn & Ht & -> & ->).
    destruct (always_step (Forall_nth_error _ _ _ _ Hc Hn) Ht) as [Hp Ht'].
    cbn [map did]. constructor; [exact Hp|].
    eapply IH; [|exact Hr]. cbn [pool]. now apply Forall_update.
Qed.

(** The steps of an interleaving are consecutive steps on the lock
    object. *)
Lemma sched_run_chained {R} s :
  forall (c : config R) tr c',
  sched_run s c = Some (tr, c') -> chained (cell c) (map did tr) (cell c').
Proof.
  induction s as [|i s IH]; intros c tr c' H.
  - now injection H as <- <-.
  - apply sched_run_cons in H. destruct H as (e & c1 & tr' & Hs & Hr & ->).
    apply sched_step_inv in Hs. destruct Hs as (t & a & l' & t' & Hn & Ht & -> & ->).
    cbn. split; [reflexivity|]. apply (IH _ _ _ Hr).
Qed.

Lemma chained_app l tr1 tr2 l' :
  chained l (tr1 ++ tr2) l' <->
  exists m, chained l tr1 m /\ chained m tr2 l'.
Proof.
  revert l. induction tr1 as [|s tr1 IH]; intros l; cbn.
  - split; [intros H; now exists l | now intros (m & -> & H)].
  - rewrite IH. split.
    + intros (Hb & m & H1 & H2). now exists m.
    + intros (m & (Hb & H1) & H2). split; [assumption | now exists m].
Qed.

(** A held lock becomes free only through a step that stores
    [UNLOCKED]. *)
Lemma held_until_release tr :
  forall l l',
  chained l tr l' ->
  Forall (fun s => sound s /\ protocol (what s) = true) tr ->
  ThisLock l = LOCKED -> ThisLock l' = UNLOCKED ->
  exists s, In s tr /\ release_transition s /\
            what s = AStore UNLOCKED memory_order_release.
Proof.
  unfold release_transition, LOCKED, UNLOCKED.
  induction tr as [|s tr IH]; intros l l' Hc Hp Hl Hl'.
  - cbn in Hc. subst l'. rewrite Hl in Hl'. discriminate.
  - destruct Hc as [Hb Hc]. inversion Hp as [|? ? [Hs Hpr] Hp']; subst.
    destruct (ThisLock (after s)) eqn:Ea.
    + destruct (IH _ _ Hc Hp' Ea Hl') as (r & Hin & Hr). exists r.
      split; [now right | exact Hr].
    + exists s. split; [now left|]. split; [now split|].
      unfold sound in Hs. destruct s as [b a af]; cbn in *.
      destruct a as [| mo v | v mo | ex de ms mf ok |]; cbn in *.
      * subst af. congruence.
      * destruct Hs as [_ ->]. congruence.
      * destruct v, mo; try discriminate. reflexivity.
      * destruct Hs as [-> ->]. destruct ex, de; try discriminate.
        rewrite Hl in Ea. cbn in Ea. rewrite Hl in Ea. discriminate.
      * subst af. congruence.
Qed.

(** A step that takes the lock from free to held is the successful
    compare-exchange, and a step that takes it from held to free is the
    store of [unlock]. *)
Lemma transitions_by_protocol s :
  sound s -> protocol (what s) = true ->
  (acquire_transition s -> s = acquire_step) /\
  (release_transition s ->
   what s = AStore UNLOCKED memory_order_release).
Proof.
  unfold sound, acquire_transition, release_transition, acquire_step, cas_step.
  unfold LOCKED, UNLOCKED.
  destruct s as [[b] a [af]]; cbn.
  destruct a as [| mo v | v mo | ex de ms mf ok |]; cbn; intros Hs Hp.
  - injection Hs as ->. split; intros [-> H]; discriminate.
  - destruct Hs as [_ [= ->]]. split; intros [-> H]; discriminate.
  - destruct v, mo; try discriminate. injection Hs as ->.
    split; [intros [_ H]; discriminate | reflexivity].
  - destruct ex, de, ms, mf; try discriminate. destruct Hs as [-> Hs].
    destruct b; cbn in Hs; injection Hs as ->.
    + split; intros [H H']; discriminate.
    + split; [reflexivity | intros [H H']; discriminate].
  - injection Hs as ->. split; intros [-> H]; discriminate.
Qed.

Lemma nth_error_update_same {A} i (x y : A) xs :
  nth_error xs i = Some y -> nth_error (update i x xs) i = Some x.
Proof.
  revert i. induction xs as [|z xs IH]; intros [|i]; cbn; try discriminate; auto.
Qed.

Lemma nth_error_update_other {A} i j (x : A) xs :
  i <> j -> nth_error (update j x xs) i = nth_error xs i.
Proof.
  revert i j. induction xs as [|z xs IH]; intros [|i] [|j] H; cbn;
    try reflexivity; [congruence | apply IH; congruence].
Qed.

(** A thread in an interleaving is a thread running among others: its
    steps are those of [run_with] for the lock objects it found. *)
Lemma sched_run_thread {R} s :
  forall (c : config R) tr c' i t,
  sched_run s c = Some (tr, c') ->
  nth_error (pool c) i = Some t ->
  exists env,
    steps_of i tr = fst (run_with env t) /\
    nth_error (pool c') i = Some (snd (run_with env t)).
Proof.
  induction s as [|j s IH]; intros c tr c' i t H Hi.
  - injection H as <- <-. now exists [].
  - apply sched_run_cons in H. destruct H as (e & c1 & tr' & Hs & Hr & ->).
    apply sched_step_inv in Hs.
    destruct Hs as (u & a & l' & u' & Hn & Ht & -> & ->).
    unfold steps_of. cbn [filter tid].
    destruct (Nat.eqb_spec j i) as [-> | Hji].
    + rewrite Hi in Hn. injection Hn as <-.
      destruct (IH _ _ _ i u' Hr) as (env & He & Hf).
      { cbn [pool]. eapply nth_error_update_same, Hi. }
      exists (cell c :: env).
      rewrite trace_cons, final_cons, Ht. cbn [map did].
      split; [now f_equal | exact Hf].
    + apply (IH _ _ _ i t Hr). cbn [pool].
      rewrite nth_error_update_other by congruence. exact Hi.
Qed.

(* ================================================================== *)
(** ** Two threads racing with [try_lock] *)
(* ================================================================== *)

Lemma sched_step_nobody {R} i (t0 t1 : itree atomicE R) l :
  sched_step (S (S i)) {| cell := l; pool := [t0; t1] |} = None.
Proof. unfold sched_step. cbn. now destruct i. Qed.

Ltac race_leaf :=
  unfold race_ok; cbn;
  split; [lia|];
  split; [discriminate|];
  split;
  [ intros r0 r1 E; try discriminate E; injection E as <- <-; now split
  | intros E; try discriminate E;
    first [ now (exists 0; eexists; eexists; reflexivity)
          | now (exists 1; eexists; eexists; reflexivity) ] ].

(** All the schedules, step by step: thread 0, thread 1, or a thread that
    is not there. *)
Ltac explore s H :=
  destruct s as [| [| [| ?]] s];
  [ injection H as <- <-; race_leaf
  | cbn in H; try discriminate H; explore s H
  | cbn in H; try discriminate H; explore s H
  | cbn [sched_run] in H; rewrite sched_step_nobody in H; discriminate H ].

Lemma race_explored s tr c :
  sched_run s race = Some (tr, c) -> race_ok s c.
Proof.
  intros H. unfold race in H. explore s H.
Qed.

(* ================================================================== *)
(** ** Runs that leave the lock object as they found it *)
(* ================================================================== *)

Lemma chained_last l tr s l' :
  chained l (tr ++ [s]) l' -> l' = after s.
Proof.
  rewrite chained_app. intros (m & _ & _ & H). now symmetry.
Qed.

Lemma read_only_same s :
  sound s -> read_only (what s) = true -> after s = before s.
Proof.
  unfold sound. destruct (what s); cbn; try discriminate; tauto.
Qed.

Lemma chained_same l tr l' :
  chained l tr l' -> Forall (fun s => after s = before s) tr -> l' = l.
Proof.
  revert l. induction tr as [|s tr IH]; intros l; cbn.
  - now intros ->.
  - intros [Hb Hc] H. inversion H as [|? ? Hs Htr]; subst.
    rewrite <- Hs. now apply IH.
Qed.

Lemma wait_same : always (fun s => read_only (what s) = true /\ after s = before s) wait.
Proof.
  intros env.
  eapply Forall_impl;
    [| apply (always_and _ _ _ (always_sound wait) wait_read_only)].
  intros s [Hs Hr]. split; [assumption | now apply read_only_same].
Qed.

(* ================================================================== *)
(** ** The properties of the specification *)
(* ================================================================== *)

(** C1.  Mutual exclusion.

    The race: two threads call [try_lock] on a newly constructed lock.
    Whatever the interleaving, it has at most four steps, the two calls
    never both return [true], some thread can take a step as long as one
    call has not returned, and once both have returned exactly one of them
    returned [true] and the lock is held.

    In general: any number of threads, each performing any sequence of
    calls to the four methods, from any initial state of the lock.
    Whatever the interleaving, the only step that takes the lock from free
    to held is the successful compare-exchange of [lock] or [try_lock],
    the only step that takes it from held to free is the store of
    [unlock], and between two steps that take the lock from free to held
    there is a step that takes it from held to free.

    The calls that complete the transition: whatever the other threads
    do, a call to [try_lock] that returned [b] has the successful
    compare-exchange as its last step exactly when [b] is [true], and a
    call to [lock] that returned has it as its last step. *)
Theorem mutual_exclusion :
  (forall s tr c,
     sched_run s race = Some (tr, c) ->
     length s <= 4 /\
     map returned (pool c) <> [Some true; Some true] /\
     (forall r0 r1, map returned (pool c) = [Some r0; Some r1] ->
                    xorb r0 r1 = true /\ ThisLock (cell c) = LOCKED) /\
     (finished c = false -> exists i e c', sched_step i c = Some (e, c'))) /\
  (forall (ps : list client) l0 s tr c,
     sched_run s {| cell := l0; pool := map calls ps |} = Some (tr, c) ->
     (forall e, In e tr -> acquire_transition (did e) ->
                did e = acquire_step) /\
     (forall e, In e tr -> release_transition (did e) ->
                what (did e) = AStore UNLOCKED memory_order_release) /\
     (forall tr1 a1 mid a2 tr2,
        tr = tr1 ++ a1 :: mid ++ a2 :: tr2 ->
        acquire_transition (did a1) -> acquire_transition (did a2) ->
        exists r, In r mid /\ release_transition (did r))) /\
  (forall env b,
     returned (snd (run_with env try_lock)) = Some b ->
     (b = true <-> ends_with_acquire (fst (run_with env try_lock)))) /\
  (forall env,
     returned (snd (run_with env lock)) <> None ->
     ends_with_acquire (fst (run_with env lock))).
Proof.
  split; [exact race_explored|].
  split; [|split; [|exact lock_returns_after_acquire]].
  - intros ps l0 s tr c H.
    assert (Hall : Forall (fun s => sound s /\ protocol (what s) = true)
                          (map did tr)).
    { eapply sched_run_always; [|exact H]. cbn [pool].
      apply Forall_forall. intros t Ht. apply in_map_iff in Ht.
      destruct Ht as (p & <- & _).
      apply always_and; [apply always_sound | apply calls_protocol]. }
    pose proof (sched_run_chained _ _ _ _ H) as Hch. cbn [cell] in Hch.
    rewrite Forall_forall in Hall.
    split; [|split].
    + intros e He Ha.
      destruct (Hall (did e) (in_map did _ _ He)) as [Hs Hp].
      now apply (transitions_by_protocol (did e)).
    + intros e He Hr.
      destruct (Hall (did e) (in_map did _ _ He)) as [Hs Hp].
      now apply (transitions_by_protocol (did e)).
    + intros tr1 a1 mid a2 tr2 -> [_ H1] [H2 _].
      rewrite map_app in Hch. cbn [map] in Hch.
      apply chained_app in Hch. destruct Hch as (m1 & _ & _ & Hch).
      rewrite map_app in Hch. cbn [map] in Hch.
      apply chained_app in Hch. destruct Hch as (m2 & Hmid & Hb & _).
      destruct (held_until_release (map did mid) _ _ Hmid) as (r & Hin & Hr & _).
      * apply Forall_forall. intros x Hx. apply Hall.
        rewrite map_app. apply in_or_app. right. right.
        rewrite map_app. apply in_or_app. now left.
      * exact H1.
      * now rewrite <- Hb.
      * apply in_map_iff in Hin. destruct Hin as (e & <- & Hin). now exists e.
  - intros env b.
    destruct (try_lock_runs env)
      as [(_ & _ & ->) | [(l & ? & _ & _ & -> & ->) |
         [(l & _ & _ & _ & ->) | (l & [[|]] & ? & _ & _ & -> & ->)]]];
      try discriminate; intros [= <-]; cbn.
    + split; [discriminate|]. intros H.
      apply (ends_with_acquire_last []) in H. discriminate.
    + split; [discriminate|]. intros H.
      apply (ends_with_acquire_last [_]) in H. discriminate.
    + split; [|reflexivity]. intros _. now exists [load_step l].
Qed.

(** An interleaving of the race in which the two loads come first, and
    an interleaving of two threads that each lock and unlock. *)
Lemma mutual_exclusion_witness :
  match sched_run [0; 1; 1; 0] race with
  | Some (tr, c) =>
      map returned (pool c) = [Some false; Some true] /\
      xorb false true = true /\ ThisLock (cell c) = LOCKED
  | None => False
  end /\
  match sched_run [0; 0; 0; 1; 1]
          {| cell := AtomicLock_ctor;
             pool := map calls [CallLock (CallUnlock Done);
                                CallLock (CallUnlock Done)] |} with
  | Some (tr, c) =>
      exists r, In r (firstn 2 (skipn 2 tr)) /\ release_transition (did r)
  | None => False
  end.
Proof.
  destruct mutual_exclusion as (Hrace & Hgen & _).
  split.
  - destruct (sched_run [0; 1; 1; 0] race) as [[tr c]|] eqn:E;
      [|cbn in E; discriminate E].
    destruct (Hrace _ _ _ E) as (_ & _ & Hboth & _).
    cbn in E. injection E as <- <-.
    split; [reflexivity|]. now apply Hboth.
  - match goal with |- match ?r with _ => _ end =>
      destruct r as [[tr c]|] eqn:E; [|cbn in E; discriminate E] end.
    destruct (Hgen _ _ _ _ _ E) as (_ & _ & Hbetween).
    cbn in E. injection E as <- <-.
    eapply (Hbetween [_] _ [_; _] _ []); [reflexivity | |]; now split.
Defined.

(** C2.  [try_lock] on an unlocked lock returns [true] and leaves the
    lock locked: it loads, then its compare-exchange succeeds.  This is so
    with no other thread at work, and among other threads whenever the
    compare-exchange still finds the lock unlocked. *)
Theorem try_lock_unlocked (l : AtomicLock) (fuel : nat) :
  ThisLock l = UNLOCKED -> 3 <= fuel ->
  run fuel try_lock l =
    Some ([load_step l; acquire_step], {| ThisLock := LOCKED |}, true) /\
  (forall l' env,
     ThisLock l' = UNLOCKED ->
     fst (run_with (l :: l' :: env) try_lock) = [load_step l; acquire_step] /\
     returned (snd (run_with (l :: l' :: env) try_lock)) = Some true).
Proof.
  destruct l as [[|]]; [discriminate|]. intros _ Hf. split.
  - destruct fuel as [|[|[|fuel]]]; [lia | lia | lia | reflexivity].
  - intros [[|]] env; [discriminate|]. intros _.
    unroll. move_on env; now split.
Qed.

Lemma try_lock_unlocked_witness :
  ThisLock AtomicLock_ctor = UNLOCKED /\ 3 <= 3 /\
  run 3 try_lock AtomicLock_ctor =
  Some ([load_step AtomicLock_ctor; acquire_step], {| ThisLock := LOCKED |}, true).
Proof.
  split; [reflexivity|]. split; [lia|].
  apply (try_lock_unlocked AtomicLock_ctor 3); [reflexivity | lia].
Defined.

(** C3.  [try_lock] on a locked lock returns [false], a value of its
    result type, and leaves the lock as it was.  Its only step is the
    load: no compare-exchange, no yield, no second look.  This is so with
    no other thread at work, and among other threads whatever they do
    next. *)
Theorem try_lock_locked (l : AtomicLock) (fuel : nat) :
  ThisLock l = LOCKED -> 2 <= fuel ->
  run fuel try_lock l = Some ([load_step l], l, false) /\
  (forall env,
     fst (run_with (l :: env) try_lock) = [load_step l] /\
     returned (snd (run_with (l :: env) try_lock)) = Some false).
Proof.
  destruct l as [[|]]; [|discriminate]. intros _ Hf. split.
  - destruct fuel as [|[|fuel]]; [lia | lia | reflexivity].
  - intros env. unroll. move_on env; now split.
Qed.

Lemma try_lock_locked_witness :
  ThisLock {| ThisLock := LOCKED |} = LOCKED /\ 2 <= 2 /\
  run 2 try_lock {| ThisLock := LOCKED |} =
  Some ([load_step {| ThisLock := LOCKED |}], {| ThisLock := LOCKED |}, false).
Proof.
  split; [reflexivity|]. split; [lia|].
  apply (try_lock_locked {| ThisLock := LOCKED |} 2); [reflexivity | lia].
Defined.

(** C4.  [lock] returns [tt], the value of [void], and only once the
    caller has taken the lock.  Whatever the other threads do, a call that
    has returned has the successful compare-exchange as its last step: the
    caller found the lock unlocked and left it locked.  This holds for the
    lock objects a thread may find, and so for a thread calling [lock] in
    an interleaving with any other threads.  With no other thread at work
    a call that returns leaves the lock locked, and on an unlocked lock it
    returns after the load and the compare-exchange. *)
Theorem lock_returns_holding :
  (forall env,
     returned (snd (run_with env lock)) <> None ->
     ends_with_acquire (fst (run_with env lock))) /\
  (forall (c : config unit) i s tr c' u,
     nth_error (pool c) i = Some lock ->
     sched_run s c = Some (tr, c') ->
     nth_error (pool c') i = Some u -> returned u <> None ->
     ends_with_acquire (steps_of i tr)) /\
  (forall fuel l tr l',
     run fuel lock l = Some (tr, l', tt) ->
     ends_with_acquire tr /\ ThisLock l' = LOCKED) /\
  (forall fuel,
     3 <= fuel ->
     run fuel lock AtomicLock_ctor =
     Some ([load_step AtomicLock_ctor; acquire_step],
           {| ThisLock := LOCKED |}, tt)).
Proof.
  split; [exact lock_returns_after_acquire|]. split; [|split].
  - intros c i s tr c' u Hi H Hu Hr.
    destruct (sched_run_thread _ _ _ _ i lock H Hi) as (env & -> & Hf).
    rewrite Hf in Hu. injection Hu as <-.
    now apply lock_returns_after_acquire.
  - intros fuel l tr l' H.
    destruct (run_is_run_with fuel lock l tr l' tt H) as (Hc & Ht & Hr).
    assert (He : ends_with_acquire tr).
    { rewrite <- Ht. apply lock_returns_after_acquire. now rewrite Hr. }
    split; [exact He|]. destruct He as [tr0 ->].
    now rewrite (chained_last _ _ _ _ Hc).
  - intros fuel Hf.
    destruct fuel as [|[|[|fuel]]]; [lia | lia | lia | reflexivity].
Qed.

(** A call that finds the lock locked twice, then unlocked. *)
Lemma lock_returns_holding_witness :
  let env := [ {| ThisLock := LOCKED |}; {| ThisLock := LOCKED |};
               {| ThisLock := LOCKED |}; {| ThisLock := UNLOCKED |};
               {| ThisLock := UNLOCKED |} ] in
  returned (snd (run_with env lock)) = Some tt /\
  ends_with_acquire (fst (run_with env lock)) /\
  run 3 lock AtomicLock_ctor =
  Some ([load_step AtomicLock_ctor; acquire_step], {| ThisLock := LOCKED |}, tt).
Proof.
  destruct lock_returns_holding as (Hret & _ & _ & Hfree).
  intros env. split; [reflexivity|]. split.
  - apply Hret. discriminate.
  - apply Hfree. lia.
Defined.

(** C5.  [unlock] stores [UNLOCKED] whatever the lock was: its only step
    is the store, with no load or compare-exchange before it, and the lock
    is unlocked afterwards, alone or among other threads.  The destructor
    does the same. *)
Theorem unlock_stores_unlocked (l : AtomicLock) :
  (forall fuel, 2 <= fuel ->
     run fuel unlock l = Some ([store_step l], {| ThisLock := UNLOCKED |}, tt) /\
     run fuel AtomicLock_dtor l =
     Some ([store_step l], {| ThisLock := UNLOCKED |}, tt)) /\
  (forall env,
     fst (run_with (l :: env) unlock) = [store_step l] /\
     fst (run_with (l :: env) AtomicLock_dtor) = [store_step l]).
Proof.
  split.
  - intros fuel Hf. destruct fuel as [|[|fuel]]; [lia | lia | now split].
  - intros env. split; apply unlock_runs.
Qed.

Lemma unlock_stores_unlocked_witness :
  2 <= 2 /\
  run 2 unlock {| ThisLock := LOCKED |} =
  Some ([store_step {| ThisLock := LOCKED |}], {| ThisLock := UNLOCKED |}, tt) /\
  run 2 AtomicLock_dtor {| ThisLock := UNLOCKED |} =
  Some ([store_step {| ThisLock := UNLOCKED |}], {| ThisLock := UNLOCKED |}, tt).
Proof.
  split; [lia|]. split.
  - apply (proj1 (unlock_stores_unlocked {| ThisLock := LOCKED |})). lia.
  - apply (proj1 (unlock_stores_unlocked {| ThisLock := UNLOCKED |})). lia.
Defined.

(** C6.  From construction, [n] rounds of [lock(); unlock();] with no
    other thread at work run to the end, for every [n].  Each round is a
    load that sees the lock unlocked, the successful compare-exchange and
    the store, and the store leaves the lock unlocked, as does the whole
    run. *)
Theorem round_trip (n fuel : nat) :
  5 * n < fuel ->
  run fuel (cycles n) AtomicLock_ctor =
  Some (concat (repeat cycle_steps n), AtomicLock_ctor, tt).
Proof.
  intros Hf. apply (run_more (5 * n + 1)); [|lia]. clear.
  induction n as [|n IH]; [reflexivity|].
  replace (5 * S n + 1) with (3 + (2 + (5 * n + 1))) by lia.
  cbn [cycles repeat concat].
  apply (run_bind lock (fun _ => unlock ;; cycles n) 3 _ AtomicLock_ctor
           [load_step AtomicLock_ctor; acquire_step] {| ThisLock := LOCKED |} tt);
    [reflexivity|].
  apply (run_bind unlock (fun _ => cycles n) 2 _ {| ThisLock := LOCKED |}
           [store_step {| ThisLock := LOCKED |}] AtomicLock_ctor tt);
    [reflexivity | exact IH].
Qed.

(** Construction, then lock, unlock, lock, unlock. *)
Lemma round_trip_witness :
  5 * 2 < 11 /\
  run 11 (lock ;; unlock ;; lock ;; unlock ;; Ret tt) AtomicLock_ctor =
  Some ([ load_step {| ThisLock := UNLOCKED |}; acquire_step;
          store_step {| ThisLock := LOCKED |};
          load_step {| ThisLock := UNLOCKED |}; acquire_step;
          store_step {| ThisLock := LOCKED |} ],
        {| ThisLock := UNLOCKED |}, tt).
Proof.
  split; [lia|]. apply (round_trip 2 11). lia.
Defined.

(** C7.  [wait] never writes the lock.  Whatever the other threads do,
    each of its steps is a load, a yield or a loop back edge and leaves the
    lock object as it found it; with no other thread at work the lock is
    after the call what it was before.  The lock may be held again when
    [wait] has returned: there is an interleaving of [wait] with a call to
    [lock] on a new lock in which [wait] returns and the lock is locked. *)
Theorem wait_never_writes :
  always (fun s => read_only (what s) = true /\ after s = before s) wait /\
  (forall (c : config unit) i s tr c',
     nth_error (pool c) i = Some wait ->
     sched_run s c = Some (tr, c') ->
     Forall (fun s => read_only (what s) = true /\ after s = before s)
            (steps_of i tr)) /\
  (forall fuel l tr l',
     run fuel wait l = Some (tr, l', tt) -> l' = l) /\
  (exists s tr c,
     sched_run s {| cell := AtomicLock_ctor; pool := [wait; lock] |}
       = Some (tr, c) /\
     map returned (pool c) = [Some tt; Some tt] /\
     ThisLock (cell c) = LOCKED).
Proof.
  split; [exact wait_same|]. split; [|split].
  - intros c i s tr c' Hi H.
    destruct (sched_run_thread _ _ _ _ i wait H Hi) as (env & -> & _).
    apply wait_same.
  - intros fuel l tr l' H.
    destruct (run_is_run_with fuel wait l tr l' tt H) as (Hc & Ht & _).
    apply (chained_same _ _ _ Hc). rewrite <- Ht.
    eapply Forall_impl; [|apply wait_same]. now intros s [_ Hs].
  - exists [0; 1; 1]. eexists; eexists.
    split; [cbn; reflexivity|]. split; reflexivity.
Qed.

(** A call to [wait] that finds the lock locked, then unlocked. *)
Lemma wait_never_writes_witness :
  Forall (fun s => read_only (what s) = true /\ after s = before s)
    [ load_step {| ThisLock := LOCKED |};
      {| before := {| ThisLock := LOCKED |}; what := AYield;
         after := {| ThisLock := LOCKED |} |};
      {| before := {| ThisLock := UNLOCKED |}; what := ALoop;
         after := {| ThisLock := UNLOCKED |} |};
      load_step {| ThisLock := UNLOCKED |} ] /\
  run 2 wait AtomicLock_ctor
    = Some ([load_step AtomicLock_ctor], AtomicLock_ctor, tt) /\
  AtomicLock_ctor = AtomicLock_ctor.
Proof.
  destruct wait_never_writes as (Hsteps & _ & Halone & _).
  split; [|split].
  - exact (Hsteps [ {| ThisLock := LOCKED |}; {| ThisLock := LOCKED |};
                    {| ThisLock := UNLOCKED |}; {| ThisLock := UNLOCKED |} ]).
  - reflexivity.
  - exact (Halone 2 AtomicLock_ctor _ _ eq_refl).
Defined.

(** C8.  [try_lock] neither spins nor blocks.  Whatever the other
    threads do, it performs at most one load and at most one
    compare-exchange and nothing else, neither a yield nor a loop back
    edge, and it has returned after two steps.  This holds for the lock
    objects a thread may find, and so for a thread calling [try_lock] in an
    interleaving with any other threads.  With no other thread at work it
    returns from every state of the lock. *)
Theorem try_lock_bounded :
  (forall env,
     one_load_one_cas (fst (run_with env try_lock)) /\
     (2 <= length env ->
      returned (snd (run_with env try_lock)) <> None)) /\
  (forall (c : config bool) i s tr c',
     nth_error (pool c) i = Some try_lock ->
     sched_run s c = Some (tr, c') ->
     one_load_one_cas (steps_of i tr)) /\
  (forall l, exists tr l' b,
     run 3 try_lock l = Some (tr, l', b) /\ length tr <= 2).
Proof.
  assert (Hruns : forall env,
     one_load_one_cas (fst (run_with env try_lock)) /\
     (2 <= length env ->
      returned (snd (run_with env try_lock)) <> None)).
  { intros env. unfold one_load_one_cas.
    destruct (try_lock_runs env)
      as [(-> & -> & _) | [(l & ? & -> & _ & -> & ->) |
         [(l & -> & _ & -> & _) | (l & l' & ? & -> & _ & -> & ->)]]];
      cbn; repeat split; try lia; discriminate. }
  split; [exact Hruns|]. split.
  - intros c i s tr c' Hi H.
    destruct (sched_run_thread _ _ _ _ i try_lock H Hi) as (env & -> & _).
    apply Hruns.
  - intros [[|]]; do 3 eexists; (split; [reflexivity | cbn; lia]).
Qed.

(** A call whose load and compare-exchange both find the lock unlocked,
    with more of the environment to come. *)
Lemma try_lock_bounded_witness :
  let env := [ {| ThisLock := UNLOCKED |}; {| ThisLock := UNLOCKED |};
               {| ThisLock := LOCKED |} ] in
  2 <= length env /\
  fst (run_with env try_lock)
    = [load_step {| ThisLock := UNLOCKED |}; acquire_step] /\
  returned (snd (run_with env try_lock)) <> None.
Proof.
  intros env. split; [cbn; lia|]. split; [reflexivity|].
  apply (proj1 try_lock_bounded env). cbn. lia.
Defined.

(** C9.  The constructor makes an unlocked lock: the member is
    [UNLOCKED], and a load that comes first returns [UNLOCKED]. *)
Theorem constructed_unlocked :
  ThisLock AtomicLock_ctor = UNLOCKED /\
  forall mo, handle (Load mo) AtomicLock_ctor = (AtomicLock_ctor, UNLOCKED).
Proof. split; [reflexivity | intros mo; reflexivity]. Qed.

(** C10.  [unlock] twice is [unlock] once, as far as the lock object
    goes: with no other thread at work both leave the lock unlocked,
    whatever it was, and [unlock] on an unlocked lock leaves it as it
    was. *)
Theorem unlock_idempotent (l : AtomicLock) (fuel : nat) :
  3 <= fuel ->
  state_after fuel (unlock ;; unlock) l = state_after fuel unlock l /\
  state_after fuel unlock l = Some {| ThisLock := UNLOCKED |} /\
  (ThisLock l = UNLOCKED -> state_after fuel unlock l = Some l).
Proof.
  intros Hf. destruct fuel as [|[|[|fuel]]]; [lia | lia | lia |].
  split; [reflexivity|]. split; [reflexivity|].
  destruct l as [[|]]; [discriminate | reflexivity].
Qed.

Lemma unlock_idempotent_witness :
  3 <= 3 /\
  state_after 3 (unlock ;; unlock) {| ThisLock := LOCKED |}
    = state_after 3 unlock {| ThisLock := LOCKED |} /\
  state_after 3 unlock {| ThisLock := LOCKED |}
    = Some {| ThisLock := UNLOCKED |} /\
  state_after 3 unlock {| ThisLock := UNLOCKED |}
    = Some {| ThisLock := UNLOCKED |}.
Proof.
  split; [lia|].
  destruct (unlock_idempotent {| ThisLock := LOCKED |} 3) as (H2 & H1 & _); [lia|].
  destruct (unlock_idempotent {| ThisLock := UNLOCKED |} 3) as (_ & _ & H0); [lia|].
  split; [exact H2|]. split; [exact H1|]. now apply H0.
Defined.

(* ================================================================== *)
(** ** One call after another *)
(* ================================================================== *)

(** The steps of [t] followed by [f]: those of [t], then, when [t] has
    returned, those of [f] on what is left of the environment. *)
Lemma trace_bind {R T} (f : R -> itree atomicE T) env :
  forall t : itree atomicE R,
  fst (run_with env (ITree.bind t f)) =
  fst (run_with env t) ++
  match returned (snd (run_with env t)) with
  | Some r => fst (run_with (skipn (length (fst (run_with env t))) env) (f r))
  | None => []
  end.
Proof.
  induction env as [|l env IH]; intros t.
  - cbn. now destruct (returned t).
  - rewrite !trace_cons, final_cons, thread_step_bind.
    destruct (thread_step t l) as [r | a l' t'] eqn:E.
    + rewrite (returned_step t l), E. cbn [app length skipn].
      now rewrite trace_cons.
    + rewrite IH. reflexivity.
Qed.

Lemma holds_from_app h tr1 tr2 :
  holds_from h (tr1 ++ tr2) = holds_from (holds_from h tr1) tr2.
Proof. apply fold_left_app. Qed.

Lemma bracketed_app h tr1 tr2 :
  bracketed h tr1 -> bracketed (holds_from h tr1) tr2 ->
  bracketed h (tr1 ++ tr2).
Proof.
  revert h. induction tr1 as [|s tr1 IH]; intros h; cbn; [auto|].
  intros [Hs H1] H2. split; [exact Hs | now apply IH].
Qed.

(** Steps that only look at the lock change nothing to who holds it. *)
Lemma read_only_holds h tr :
  Forall (fun s => read_only (what s) = true) tr ->
  holds_from h tr = h /\ bracketed h tr.
Proof.
  induction 1 as [|s tr Hs _ [IH1 IH2]]; [now split|].
  assert (E : holds_next h s = h /\
              match what s with AStore _ _ => h = true | _ => True end).
  { unfold holds_next. now destruct (what s). }
  destruct E as [E1 E2]. unfold holds_from in *. cbn. rewrite E1. now split.
Qed.

(* ================================================================== *)
(** ** The loops, round by round *)
(* ================================================================== *)

Lemma failed_round_neutral r : failed_round r -> Forall neutral r.
Proof.
  intros [[b] l1 l2 H | [b] [b'] l1 l2 H H']; cbn in H; subst;
    try (cbn in H'; subst); repeat constructor.
Qed.

Lemma spin_round_neutral r : spin_round r -> Forall neutral r.
Proof. intros [[b] l1 l2 H]; cbn in H; subst; repeat constructor. Qed.

(** All the runs of [lock].  A run that has not returned has changed
    nothing; a run that has returned is made of rounds that did not take
    the lock, then a load that saw the lock unlocked and the successful
    compare-exchange. *)
Lemma lock_shape n :
  forall env, length env <= n ->
  (returned (snd (run_with env lock)) = None /\
   Forall neutral (fst (run_with env lock))) \/
  (returned (snd (run_with env lock)) = Some tt /\
   exists rounds l,
     Forall failed_round rounds /\ ThisLock l = UNLOCKED /\
     fst (run_with env lock) = concat rounds ++ [load_step l; acquire_step]).
Proof.
  induction n as [|n IH]; intros env Hn.
  - destruct env; [|cbn in Hn; lia]. left. split; [reflexivity | constructor].
  - look env.
    + left. split; [reflexivity | constructor].
    + (* the load saw LOCKED: yield, then round again *)
      move_on env; [left; split; [reflexivity | repeat constructor]|].
      move_on env; [left; split; [reflexivity | repeat constructor]|].
      change (ITree.iter lock_body tt) with lock.
      destruct (IH env) as [[Hr Hs] | (Hr & rounds & l & Hrs & Hl & ->)];
        [cbn in Hn; lia | |].
      * left. split; [exact Hr | repeat (constructor; [now split|]); exact Hs].
      * right. split; [exact Hr|].
        exists ([load_step {| ThisLock := LOCKED |}; idle AYield a; idle ALoop a0]
                  :: rounds), l.
        split; [constructor; [now constructor | exact Hrs]|]. now split.
    + (* the load saw UNLOCKED: compare-exchange *)
      look env; [left; split; [reflexivity | repeat constructor] | |].
      * (* lost the race: yield, then round again *)
        move_on env; [left; split; [reflexivity | repeat constructor]|].
        move_on env; [left; split; [reflexivity | repeat constructor]|].
        change (ITree.iter lock_body tt) with lock.
        destruct (IH env) as [[Hr Hs] | (Hr & rounds & l & Hrs & Hl & ->)];
          [cbn in Hn; lia | |].
        -- left. split; [exact Hr | repeat (constructor; [now split|]); exact Hs].
        -- right. split; [exact Hr|].
           exists ([load_step {| ThisLock := UNLOCKED |};
                    cas_step {| ThisLock := LOCKED |};
                    idle AYield a; idle ALoop a0] :: rounds), l.
           split; [constructor; [now constructor | exact Hrs]|]. now split.
      * (* won: return *)
        right. move_on env; (split; [reflexivity|]);
          exists [], {| ThisLock := UNLOCKED |}; now repeat split.
Qed.

(** All the runs of [wait].  A run that has not returned has only
    looked at the lock; a run that has returned is made of rounds in which
    the load saw the lock locked, then a load that saw it unlocked. *)
Lemma wait_shape n :
  forall env, length env <= n ->
  (returned (snd (run_with env wait)) = None /\
   Forall neutral (fst (run_with env wait))) \/
  (returned (snd (run_with env wait)) = Some tt /\
   exists rounds l,
     Forall spin_round rounds /\ ThisLock l = UNLOCKED /\
     fst (run_with env wait) = concat rounds ++ [load_step l]).
Proof.
  induction n as [|n IH]; intros env Hn.
  - destruct env; [|cbn in Hn; lia]. left. split; [reflexivity | constructor].
  - look env.
    + left. split; [reflexivity | constructor].
    + move_on env; [left; split; [reflexivity | repeat constructor]|].
      move_on env; [left; split; [reflexivity | repeat constructor]|].
      change (ITree.iter wait_body tt) with wait.
      destruct (IH env) as [[Hr Hs] | (Hr & rounds & l & Hrs & Hl & ->)];
        [cbn in Hn; lia | |].
      * left. split; [exact Hr | repeat (constructor; [now split|]); exact Hs].
      * right. split; [exact Hr|].
        exists ([load_step {| ThisLock := LOCKED |}; idle AYield a; idle ALoop a0]
                  :: rounds), l.
        split; [constructor; [now constructor | exact Hrs]|]. now split.
    + right. move_on env; (split; [reflexivity|]);
        exists [], {| ThisLock := UNLOCKED |}; now repeat split.
Qed.

Lemma lock_all_runs env :
  (returned (snd (run_with env lock)) = None /\
   Forall neutral (fst (run_with env lock))) \/
  (returned (snd (run_with env lock)) = Some tt /\
   exists rounds l,
     Forall failed_round rounds /\ ThisLock l = UNLOCKED /\
     fst (run_with env lock) = concat rounds ++ [load_step l; acquire_step]).
Proof. now apply (lock_shape (length env)). Qed.

Lemma wait_all_runs env :
  (returned (snd (run_with env wait)) = None /\
   Forall neutral (fst (run_with env wait))) \/
  (returned (snd (run_with env wait)) = Some tt /\
   exists rounds l,
     Forall spin_round rounds /\ ThisLock l = UNLOCKED /\
     fst (run_with env wait) = concat rounds ++ [load_step l]).
Proof. now apply (wait_shape (length env)). Qed.

(** Every step of [lock] and of [try_lock] is the successful
    compare-exchange or changes nothing. *)
Lemma lock_writes_once :
  always (fun s => s = acquire_step \/ neutral s) lock.
Proof.
  intros env.
  destruct (lock_all_runs env) as [[_ H] | (_ & rounds & [b] & Hr & Hl & ->)].
  - eapply Forall_impl; [|exact H]. now right.
  - cbn in Hl. subst b. apply Forall_app. split.
    + eapply Forall_impl; [|apply Forall_concat].
      * intros s Hs. right. exact Hs.
      * eapply Forall_impl; [|exact Hr]. apply failed_round_neutral.
    + constructor; [right; now split|]. constructor; [now left | constructor].
Qed.

Lemma try_lock_writes_once :
  always (fun s => s = acquire_step \/ neutral s) try_lock.
Proof.
  intros env.
  destruct (try_lock_runs env)
    as [(_ & -> & _) | [([b] & ? & _ & _ & -> & _) |
       [([b] & _ & _ & -> & _) | ([b] & [[|]] & ? & _ & Hb & -> & _)]]];
    try (cbn in Hb; subst b);
    repeat (constructor; try (right; now split); try now left).
Qed.

Lemma wait_writes_nothing : always neutral wait.
Proof.
  intros env.
  destruct (wait_all_runs env) as [[_ H] | (_ & rounds & [b] & Hr & Hl & ->)];
    [exact H|].
  cbn in Hl. subst b. apply Forall_app. split.
  - apply Forall_concat. eapply Forall_impl; [|exact Hr].
    apply spin_round_neutral.
  - repeat constructor.
Qed.

(** X1.  The runs of [lock], whatever the other threads do.  As long as
    the call has not returned, its steps have changed neither the lock nor
    who holds it.  When it has returned, its steps are rounds that did not
    take the lock, each one a load that saw the lock locked or a load
    that saw it unlocked and a compare-exchange that found it locked,
    followed by one yield and the back edge, and then a load that saw the
    lock unlocked and the successful compare-exchange.  So a
    compare-exchange is attempted only right after a load that saw the lock
    unlocked, and the thread yields once after each attempt that fails. *)
Theorem lock_rounds (env : list AtomicLock) :
  (returned (snd (run_with env lock)) = None /\
   Forall neutral (fst (run_with env lock))) \/
  (returned (snd (run_with env lock)) = Some tt /\
   exists rounds l,
     Forall failed_round rounds /\ ThisLock l = UNLOCKED /\
     fst (run_with env lock) = concat rounds ++ [load_step l; acquire_step]).
Proof. exact (lock_all_runs env). Qed.

(** X2.  The runs of [wait], whatever the other threads do.  As long as
    the call has not returned, its steps have changed neither the lock nor
    who holds it.  When it has returned, its steps are rounds made of a
    load that saw the lock locked, one yield and the back edge, and then a
    load that saw the lock unlocked: [wait] returns only after it has seen
    the lock unlocked, and it returns at the first load that does. *)
Theorem wait_rounds (env : list AtomicLock) :
  (returned (snd (run_with env wait)) = None /\
   Forall neutral (fst (run_with env wait))) \/
  (returned (snd (run_with env wait)) = Some tt /\
   exists rounds l,
     Forall spin_round rounds /\ ThisLock l = UNLOCKED /\
     fst (run_with env wait) = concat rounds ++ [load_step l]).
Proof. exact (wait_all_runs env). Qed.

(** X3.  The only write of [lock], [try_lock] and [wait] is the
    successful compare-exchange.  Whatever the other threads do, every
    step of [lock] and of [try_lock] is the successful compare-exchange or
    changes neither the lock nor who holds it, and every step of [wait]
    changes neither: a held lock is never freed by these calls, and a
    [try_lock] that returns [false] has left the lock as each of its steps
    found it. *)
Theorem acquire_is_the_only_write :
  always (fun s => s = acquire_step \/ neutral s) lock /\
  always (fun s => s = acquire_step \/ neutral s) try_lock /\
  always neutral wait /\
  (forall env,
     returned (snd (run_with env try_lock)) = Some false ->
     Forall neutral (fst (run_with env try_lock))).
Proof.
  split; [exact lock_writes_once|].
  split; [exact try_lock_writes_once|].
  split; [exact wait_writes_nothing|].
  - intros env.
    destruct (try_lock_runs env)
      as [(_ & -> & _) | [([b] & ? & _ & _ & -> & _) |
         [([b] & _ & _ & -> & _) | ([b] & [[|]] & ? & _ & Hb & -> & ->)]]];
      try (cbn in Hb; subst b); try discriminate; intros _;
      repeat (constructor; try now split).
Qed.

(** A call to [try_lock] that loses the race. *)
Lemma acquire_is_the_only_write_witness :
  let env := [ {| ThisLock := UNLOCKED |}; {| ThisLock := LOCKED |} ] in
  returned (snd (run_with env try_lock)) = Some false /\
  Forall neutral (fst (run_with env try_lock)) /\
  fst (run_with env try_lock)
    = [ load_step {| ThisLock := UNLOCKED |};
        cas_step {| ThisLock := LOCKED |} ].
Proof.
  intros env. destruct acquire_is_the_only_write as (_ & _ & _ & Hfalse).
  split; [reflexivity|]. split; [|reflexivity].
  apply Hfalse. reflexivity.
Defined.

(* ================================================================== *)
(** ** Spinning, and the end of it *)
(* ================================================================== *)










(** The next step of a thread, when the environment is a list followed
    by another. *)
Ltac move_on_app env :=
  destruct env as [| ? env]; cbn [app];
  [ | rewrite final_cons; cbn -[run_with app] ].

Ltac look_app env :=
  destruct env as [| [[|]] env]; cbn [app];
  [ | rewrite final_cons; cbn -[run_with app]
    | rewrite final_cons; cbn -[run_with app] ].

Lemma final_returned {R} env (t : itree atomicE R) r :
  returned t = Some r -> returned (snd (run_with env t)) = Some r.
Proof.
  destruct env as [|l env]; intros H; [exact H|].
  rewrite final_cons. pose proof H as H'. rewrite (returned_step t l) in H'.
  now destruct (thread_step t l).
Qed.

(** The steps that are left when the environment is known. *)
Ltac run_out :=
  repeat (rewrite final_cons; cbn -[run_with]);
  first [reflexivity | now apply final_returned].

Lemma four_unlocked env :
  Forall (fun l => ThisLock l = UNLOCKED) env -> 4 <= length env ->
  exists env',
    env = {| ThisLock := UNLOCKED |} :: {| ThisLock := UNLOCKED |}
          :: {| ThisLock := UNLOCKED |} :: {| ThisLock := UNLOCKED |} :: env'.
Proof.
  intros H Hn.
  destruct env as [|[b1] [|[b2] [|[b3] [|[b4] env]]]]; cbn in Hn; try lia.
  inversion H as [|? ? H1 H']; subst. inversion H' as [|? ? H2 H'']; subst.
  inversion H'' as [|? ? H3 H3']; subst. inversion H3' as [|? ? H4 _]; subst.
  cbn in *. subst. now exists env.
Qed.

(** Wherever [lock] is in its loop, four steps in which it finds the lock
    unlocked are enough for it to return. *)
Lemma lock_progress n :
  forall env env', length env <= n ->
  returned (snd (run_with
    (env ++ {| ThisLock := UNLOCKED |} :: {| ThisLock := UNLOCKED |}
         :: {| ThisLock := UNLOCKED |} :: {| ThisLock := UNLOCKED |} :: env')
    lock)) = Some tt.
Proof.
  induction n as [|n IH]; intros env env' Hn.
  - destruct env; [run_out | cbn in Hn; lia].
  - look_app env; [run_out | |].
    + move_on_app env; [run_out|].
      move_on_app env; [run_out|].
      apply IH. cbn in Hn; lia.
    + look_app env; [run_out | |].
      * move_on_app env; [run_out|].
        move_on_app env; [run_out|].
        apply IH. cbn in Hn; lia.
      * move_on_app env; run_out.
Qed.

Lemma wait_progress n :
  forall env env', length env <= n ->
  returned (snd (run_with
    (env ++ {| ThisLock := UNLOCKED |} :: {| ThisLock := UNLOCKED |}
         :: {| ThisLock := UNLOCKED |} :: env')
    wait)) = Some tt.
Proof.
  induction n as [|n IH]; intros env env' Hn.
  - destruct env; [run_out | cbn in Hn; lia].
  - look_app env; [run_out | |].
    + move_on_app env; [run_out|].
      move_on_app env; [run_out|].
      apply IH. cbn in Hn; lia.
    + move_on_app env; run_out.
Qed.

(** X5.  Once the lock stays unlocked, [lock] and [wait] return.
    Whatever happened before, and wherever the call is in its loop, if the
    call finds the lock unlocked at each of its next steps, then [lock]
    has returned after at most four of them and [wait] after at most
    three. *)
Theorem returns_once_free (env free : list AtomicLock) :
  Forall (fun l => ThisLock l = UNLOCKED) free ->
  4 <= length free ->
  returned (snd (run_with (env ++ free) lock)) = Some tt /\
  returned (snd (run_with (env ++ free) wait)) = Some tt.
Proof.
  intros H Hn. destruct (four_unlocked free H Hn) as [env' ->]. split.
  - now apply (lock_progress (length env)).
  - now apply (wait_progress (length env)).
Qed.

(** A call to [lock] that loses a race, and then finds the lock
    unlocked. *)
Lemma returns_once_free_witness :
  let env := [ {| ThisLock := UNLOCKED |}; {| ThisLock := LOCKED |} ] in
  let free := [ {| ThisLock := UNLOCKED |}; {| ThisLock := UNLOCKED |};
                {| ThisLock := UNLOCKED |}; {| ThisLock := UNLOCKED |} ] in
  Forall (fun l => ThisLock l = UNLOCKED) free /\ 4 <= length free /\
  returned (snd (run_with (env ++ free) lock)) = Some tt /\
  returned (snd (run_with (env ++ free) wait)) = Some tt.
Proof.
  intros env free.
  assert (H : Forall (fun l => ThisLock l = UNLOCKED) free)
    by (repeat constructor).
  assert (Hn : 4 <= length free) by (cbn; lia).
  split; [exact H|]. split; [exact Hn|].
  exact (returns_once_free env free H Hn).
Defined.

(* ================================================================== *)
(** ** Who holds the lock *)
(* ================================================================== *)

Lemma neutral_holds h tr :
  Forall neutral tr -> holds_from h tr = h /\ bracketed h tr.
Proof.
  induction 1 as [|s tr [Hs _] _ [IH1 IH2]]; [now split|].
  assert (E : holds_next h s = h /\
              match what s with AStore _ _ => h = true | _ => True end).
  { unfold holds_next. destruct (what s) as [| | | ? ? ? ? []|];
      try discriminate; now split. }
  destruct E as [E1 E2]. unfold holds_from in *. cbn. rewrite E1. now split.
Qed.

(** What a call does to who holds the lock: after [lock] the caller
    holds it, after [try_lock] it does when the result is [true], [wait]
    changes nothing, and none of them stores. *)
Lemma lock_holds env h :
  bracketed h (fst (run_with env lock)) /\
  holds_from h (fst (run_with env lock)) =
    match returned (snd (run_with env lock)) with
    | Some _ => true
    | None => h
    end.
Proof.
  destruct (lock_all_runs env) as [[-> H] | (-> & rounds & l & Hr & Hl & ->)].
  - destruct (neutral_holds h _ H) as [H1 H2]. now split.
  - assert (Hn : Forall neutral (concat rounds ++ [load_step l])).
    { apply Forall_app. split; [|repeat constructor].
      apply Forall_concat. eapply Forall_impl; [|exact Hr].
      apply failed_round_neutral. }
    destruct (neutral_holds h _ Hn) as [H1 H2].
    change [load_step l; acquire_step]
      with ([load_step l] ++ [acquire_step]).
    rewrite app_assoc. split.
    + apply bracketed_app; [exact H2 | now cbn].
    + now rewrite holds_from_app.
Qed.

Lemma try_lock_holds env h :
  bracketed h (fst (run_with env try_lock)) /\
  holds_from h (fst (run_with env try_lock)) =
    match returned (snd (run_with env try_lock)) with
    | Some true => true
    | _ => h
    end.
Proof.
  destruct (try_lock_runs env)
    as [(_ & -> & ->) | [(l & ? & _ & _ & -> & ->) |
       [(l & _ & _ & -> & ->) | (l & [[|]] & ? & _ & _ & -> & ->)]]];
    now cbn.
Qed.

Lemma wait_holds env h :
  bracketed h (fst (run_with env wait)) /\
  holds_from h (fst (run_with env wait)) = h.
Proof.
  destruct (read_only_holds h _ (wait_read_only env)) as [H1 H2]. now split.
Qed.

(** Disciplined code stores only while it holds the lock. *)
Lemma calls_bracketed p :
  forall h env, disciplined h p -> bracketed h (fst (run_with env (calls p))).
Proof.
  induction p as [| k IH | k IH | k IH | k IH]; intros h env Hd;
    cbn [calls disciplined] in *.
  - now destruct env.
  - destruct Hd as [-> Hk]. rewrite trace_bind.
    destruct (lock_holds env false) as [Hb Hh].
    apply bracketed_app; [exact Hb|]. rewrite Hh.
    destruct (returned (snd (run_with env lock))); [now apply IH | exact I].
  - destruct Hd as (-> & Ht & Hf). rewrite trace_bind.
    destruct (try_lock_holds env false) as [Hb Hh].
    apply bracketed_app; [exact Hb|]. rewrite Hh.
    destruct (returned (snd (run_with env try_lock))) as [[|]|];
      [now apply IH | now apply IH | exact I].
  - rewrite trace_bind.
    destruct (wait_holds env h) as [Hb Hh].
    apply bracketed_app; [exact Hb|]. rewrite Hh.
    destruct (returned (snd (run_with env wait))); [now apply IH | exact I].
  - destruct Hd as [-> Hk]. rewrite trace_bind.
    destruct env as [|l env]; [exact I|].
    destruct (unlock_runs l env) as [-> ->]. cbn [app].
    split; [reflexivity|]. now apply IH.
Qed.


Lemma exclusive_step h l j s :
  exclusive h l -> before s = l -> sound s -> protocol (what s) = true ->
  match what s with AStore _ _ => h j = true | _ => True end ->
  exclusive (fun i => if i =? j then holds_next (h j) s else h i) (after s).
Proof.
  intros [Huniq Hiff] Hb Hs Hp Hst.
  assert (Hkeep : holds_next (h j) s = h j -> after s = l ->
          exclusive (fun i => if i =? j then holds_next (h j) s else h i)
                    (after s)).
  { intros -> ->. split.
    - intros i i'. destruct (Nat.eqb_spec i j) as [->|], (Nat.eqb_spec i' j) as [->|];
        auto.
    - rewrite <- Hiff. split; intros [i Hi]; exists i; cbn beta in *;
        destruct (Nat.eqb_spec i j) as [E|E]; now subst. }
  unfold sound in Hs. unfold holds_next in *.
  destruct s as [b a af]; cbn in *. subst b.
  destruct a as [| mo v | v mo | ex de ms mf ok |]; cbn in *.
  - apply Hkeep; [reflexivity | exact Hs].
  - apply Hkeep; [reflexivity | now destruct Hs].
  - (* the store of [unlock], by the thread that holds the lock *)
    destruct v; [discriminate|]. subst af. split.
    + intros i i'. destruct (Nat.eqb_spec i j); [discriminate|].
      destruct (Nat.eqb_spec i' j); [discriminate|]. apply Huniq.
    + split; [|discriminate]. intros [i Hi]. cbn beta in Hi.
      destruct (Nat.eqb_spec i j) as [Hij|Hij]; [discriminate|].
      elim Hij. now apply Huniq.
  - destruct ex, de; try discriminate. destruct Hs as [-> ->].
    destruct (ThisLock l) eqn:El; cbn.
    + apply (Hkeep eq_refl eq_refl).
    + (* the successful compare-exchange: nobody held the lock *)
      assert (Hnone : forall i, h i = false).
      { intros i. destruct (h i) eqn:Hi; [|reflexivity].
        assert (E : false = LOCKED) by (apply Hiff; now exists i).
        discriminate E. }
      split.
      * intros i i'. destruct (Nat.eqb_spec i j) as [->|];
          destruct (Nat.eqb_spec i' j) as [->|]; auto;
          rewrite ?Hnone; discriminate.
      * split; [reflexivity|]. intros _. exists j. now rewrite Nat.eqb_refl.
  - apply Hkeep; [reflexivity | exact Hs].
Qed.

Lemma exclusive_ext h h' l :
  (forall i, h i = h' i) -> exclusive h l -> exclusive h' l.
Proof.
  intros E [Huniq Hiff]. split.
  - intros i j. rewrite <- !E. apply Huniq.
  - rewrite <- Hiff. split; intros [i Hi]; exists i; now rewrite ?E in *.
Qed.

Lemma well_behaved_step h {R} (t : itree atomicE R) l a l' t' :
  well_behaved h t -> thread_step t l = Stepped a l' t' ->
  let s := {| before := l; what := a; after := l' |} in
  match a with AStore _ _ => h = true | _ => True end /\
  protocol a = true /\ sound s /\ well_behaved (holds_next h s) t'.
Proof.
  intros [Hb Hp] E s.
  destruct (always_step Hp E) as [Hpa Hp'].
  pose proof (Hb [l]) as H1. rewrite trace_cons, E in H1. destruct H1 as [H1 _].
  split; [exact H1|]. split; [exact Hpa|].
  split; [eapply thread_step_sound, E|]. split; [|exact Hp'].
  intros env. specialize (Hb (l :: env)). rewrite trace_cons, E in Hb.
  now destruct Hb.
Qed.

(** Threads that store only while they hold the lock keep the lock
    exclusive, whatever their interleaving. *)
Lemma sched_run_exclusive {R} s :
  forall (c : config R) (h : nat -> bool) tr c',
  (forall i t, nth_error (pool c) i = Some t -> well_behaved (h i) t) ->
  exclusive h (cell c) ->
  sched_run s c = Some (tr, c') ->
  exclusive (fun i => holds_from (h i) (steps_of i tr)) (cell c').
Proof.
  induction s as [|j s IH]; intros c h tr c' Hw Hx H.
  - injection H as <- <-. exact Hx.
  - apply sched_run_cons in H. destruct H as (e & c1 & tr' & Hs & Hr & ->).
    apply sched_step_inv in Hs.
    destruct Hs as (t & a & l' & t' & Hn & Ht & -> & ->).
    destruct (well_behaved_step _ _ _ _ _ _ (Hw j t Hn) Ht)
      as (Hst & Hp & Hsd & Hw').
    set (st := {| before := cell c; what := a; after := l' |}) in *.
    eapply exclusive_ext;
      [| eapply (IH _ (fun i => if i =? j then holds_next (h j) st else h i));
         [ | | exact Hr]].
    + intros i. unfold steps_of. cbn [filter tid].
      destruct (Nat.eqb_spec j i) as [->|Hji].
      * rewrite Nat.eqb_refl. reflexivity.
      * destruct (Nat.eqb_spec i j); [congruence | reflexivity].
    + intros i u Hu. cbn [pool] in Hu.
      destruct (Nat.eqb_spec i j) as [->|Hij].
      * rewrite (nth_error_update_same _ _ _ _ Hn) in Hu.
        injection Hu as <-. exact Hw'.
      * rewrite nth_error_update_other in Hu by exact Hij. now apply Hw.
    + cbn [cell]. now apply (exclusive_step h (cell c) j st).
Qed.

(** X6.  Mutual exclusion for code that keeps to the contract.  Threads
    that call [lock] and [try_lock] only when they do not hold the lock,
    and [unlock] only when they do, start on a newly constructed lock.
    Whatever the number of threads and their interleaving, at most one
    thread holds the lock, and the lock is locked exactly when a thread
    holds it; a thread holds the lock from its successful compare-exchange
    to its next store.  The contract is needed: when a thread calls
    [unlock] without holding the lock, there is an interleaving after which
    two threads hold it. *)
Theorem one_holder :
  (forall (ps : list client) s tr c,
     Forall (disciplined false) ps ->
     sched_run s {| cell := AtomicLock_ctor; pool := map calls ps |}
       = Some (tr, c) ->
     (forall i j,
        holds (steps_of i tr) = true -> holds (steps_of j tr) = true ->
        i = j) /\
     ((exists i, holds (steps_of i tr) = true) <->
      ThisLock (cell c) = LOCKED)) /\
  (exists s tr c,
     sched_run s {| cell := AtomicLock_ctor;
                    pool := map calls [CallLock Done; CallUnlock Done;
                                       CallLock Done] |} = Some (tr, c) /\
     holds (steps_of 0 tr) = true /\ holds (steps_of 2 tr) = true).
Proof.
  split.
  - intros ps s tr c Hd H.
    apply (sched_run_exclusive s _ (fun _ => false) tr c) in H.
    + exact H.
    + intros i t Hi. cbn [pool] in Hi.
      apply nth_error_In, in_map_iff in Hi. destruct Hi as (p & <- & Hp).
      rewrite Forall_forall in Hd. split.
      * intros env. now apply calls_bracketed, Hd.
      * apply calls_protocol.
    + split; [discriminate|]. split; [intros [i Hi] | intros Hl]; discriminate.
  - exists [0; 0; 1; 2; 2]. eexists; eexists.
    split; [cbn; reflexivity|]. split; reflexivity.
Qed.

(** Two threads that each lock and unlock; the second one looks at the
    lock while the first holds it. *)
Lemma one_holder_witness :
  Forall (disciplined false)
    [CallLock (CallUnlock Done); CallLock (CallUnlock Done)] /\
  match sched_run [0; 0; 1; 1; 1; 0; 1; 1]
          {| cell := AtomicLock_ctor;
             pool := map calls [CallLock (CallUnlock Done);
                                CallLock (CallUnlock Done)] |} with
  | Some (tr, c) =>
      holds (steps_of 0 tr) = false /\ holds (steps_of 1 tr) = true /\
      ((exists i, holds (steps_of i tr) = true) <-> ThisLock (cell c) = LOCKED)
  | None => False
  end.
Proof.
  assert (Hd : Forall (disciplined false)
                 [CallLock (CallUnlock Done); CallLock (CallUnlock Done)])
    by (repeat constructor).
  split; [exact Hd|].
  match goal with |- match ?r with _ => _ end =>
    destruct r as [[tr c]|] eqn:E; [|cbn in E; discriminate E] end.
  destruct (proj1 one_holder _ _ _ _ Hd E) as [_ Hiff].
  cbn in E. injection E as <- <-.
  split; [reflexivity|]. split; [reflexivity | exact Hiff].
Defined.

(* ================================================================== *)
(** ** Any number of threads racing with [try_lock] *)
(* ================================================================== *)

Lemma update_length {A} i (x : A) xs : length (update i x xs) = length xs.
Proof.
  revert i. induction xs as [|y xs IH]; intros [|i]; cbn; auto.
Qed.

(** A thread that is not there takes no step. *)
Lemma sched_run_absent {R} s :
  forall (c : config R) tr c' i,
  sched_run s c = Some (tr, c') ->
  nth_error (pool c) i = None -> steps_of i tr = [].
Proof.
  induction s as [|j s IH]; intros c tr c' i H Hi.
  - now injection H as <- <-.
  - apply sched_run_cons in H. destruct H as (e & c1 & tr' & Hs & Hr & ->).
    apply sched_step_inv in Hs.
    destruct Hs as (t & a & l' & t' & Hn & Ht & -> & ->).
    unfold steps_of. cbn [filter tid].
    destruct (Nat.eqb_spec j i) as [->|Hji]; [congruence|].
    apply (IH _ _ _ i Hr). cbn [pool].
    apply nth_error_None. rewrite update_length. now apply nth_error_None.
Qed.

Lemma steps_of_Forall (P : step -> Prop) i tr :
  Forall P (map did tr) -> Forall P (steps_of i tr).
Proof.
  unfold steps_of. induction tr as [|e tr IH]; cbn; [constructor|].
  intros H. inversion H; subst. destruct (tid e =? i); cbn; auto.
Qed.

(** Without a store, a lock that is unlocked at the end was unlocked all
    along. *)
Lemma unlocked_all_along tr :
  forall l l',
  chained l tr l' ->
  Forall (fun s => s = acquire_step \/ neutral s) tr ->
  ThisLock l' = UNLOCKED ->
  Forall (fun s => ThisLock (before s) = UNLOCKED) tr.
Proof.
  induction tr as [|s tr IH]; intros l l' Hc Hs Hl'; [constructor|].
  destruct Hc as [Hb Hc]. inversion Hs as [|? ? H1 H2]; subst.
  pose proof (IH _ _ Hc H2 Hl') as Htr. constructor; [|exact Htr].
  assert (Ha : ThisLock (after s) = UNLOCKED).
  { destruct tr as [|s' tr]; cbn in Hc; [now subst|].
    destruct Hc as [<- _]. now inversion Htr. }
  destruct H1 as [-> | [_ Hn]]; [discriminate | now rewrite <- Hn].
Qed.

(** A call to [try_lock] that finds the lock unlocked at each step
    returns [true], if it returns. *)
Lemma try_lock_wins env b :
  Forall (fun s => ThisLock (before s) = UNLOCKED) (fst (run_with env try_lock)) ->
  returned (snd (run_with env try_lock)) = Some b -> b = true.
Proof.
  destruct (try_lock_runs env)
    as [(_ & _ & ->) | [([bl] & ? & _ & Hl & -> & ->) |
       [(l & _ & _ & _ & ->) | (l & [[|]] & ? & _ & _ & -> & ->)]]];
    intros H; try discriminate.
  - cbn in Hl. subst bl. inversion H as [|? ? H1 _]; discriminate H1.
  - inversion H as [|? ? _ H2]; inversion H2 as [|? ? H3 _]; discriminate H3.
  - now intros [= <-].
Qed.

Lemma sched_run_length {R} s :
  forall (c : config R) tr c',
  sched_run s c = Some (tr, c') -> length (pool c') = length (pool c).
Proof.
  induction s as [|j s IH]; intros c tr c' H.
  - now injection H as <- <-.
  - apply sched_run_cons in H. destruct H as (e & c1 & tr' & Hs & Hr & ->).
    apply sched_step_inv in Hs.
    destruct Hs as (t & a & l' & t' & Hn & Ht & -> & ->).
    rewrite (IH _ _ _ Hr). cbn [pool]. apply update_length.
Qed.

Lemma returned_in_pool {R} (c : config R) i r :
  nth_error (map returned (pool c)) i = Some (Some r) <->
  exists u, nth_error (pool c) i = Some u /\ returned u = Some r.
Proof.
  rewrite nth_error_map. destruct (nth_error (pool c) i) as [u|]; cbn.
  - split; [intros [= H]; now exists u | now intros (u' & [= <-] & ->)].
  - split; [discriminate | now intros (u' & H & _)].
Qed.

(** X7.  Any number of threads call [try_lock] on a newly constructed
    lock.  Whatever their interleaving, at most one of the calls returns
    [true]; and when all the calls have returned, one of them has returned
    [true] and the lock is locked. *)
Theorem try_lock_race (n : nat) s tr (c : config bool) :
  sched_run s {| cell := AtomicLock_ctor; pool := repeat try_lock n |}
    = Some (tr, c) ->
  (forall i j,
     nth_error (map returned (pool c)) i = Some (Some true) ->
     nth_error (map returned (pool c)) j = Some (Some true) -> i = j) /\
  (0 < n -> finished c = true ->
   ThisLock (cell c) = LOCKED /\
   exists i, nth_error (map returned (pool c)) i = Some (Some true)).
Proof.
  intros H.
  (* each thread, as a thread among others *)
  assert (Hthread : forall i, i < n -> exists env,
            steps_of i tr = fst (run_with env try_lock) /\
            nth_error (pool c) i = Some (snd (run_with env try_lock))).
  { intros i Hi. apply (sched_run_thread _ _ _ _ i try_lock H). cbn [pool].
    rewrite (nth_error_nth' _ try_lock) by now rewrite repeat_length.
    now rewrite nth_repeat. }
  assert (Hlen : length (pool c) = n).
  { rewrite (sched_run_length _ _ _ _ H). apply repeat_length. }
  (* a call has returned [true] exactly when its thread holds the lock *)
  assert (Hholds : forall i,
            nth_error (map returned (pool c)) i = Some (Some true) <->
            holds (steps_of i tr) = true).
  { intros i. rewrite returned_in_pool.
    destruct (Nat.lt_ge_cases i n) as [Hi|Hi].
    - destruct (Hthread i Hi) as (env & -> & Hu).
      destruct (try_lock_holds env false) as [_ Hh]. unfold holds. rewrite Hh.
      split.
      + intros (u & Hu' & Hr). rewrite Hu in Hu'. injection Hu' as <-.
        now rewrite Hr.
      + intros Hr. eexists. split; [exact Hu|].
        now destruct (returned (snd (run_with env try_lock))) as [[|]|].
    - rewrite (sched_run_absent _ _ _ _ i H)
        by (apply nth_error_None; cbn [pool]; now rewrite repeat_length).
      split; [|discriminate]. intros (u & Hu & _).
      assert (i < length (pool c)) by (apply nth_error_Some; congruence). lia. }
  (* the threads keep the lock exclusive *)
  assert (Hx : exclusive (fun i => holds (steps_of i tr)) (cell c)).
  { apply (sched_run_exclusive s _ (fun _ => false) tr c) in H; [exact H| |].
    - intros i t Hi. cbn [pool] in Hi. apply nth_error_In, repeat_spec in Hi.
      subst t. split; [|exact try_lock_protocol].
      intros env. apply try_lock_holds.
    - split; [discriminate|].
      split; [intros [i Hi] | intros Hl]; discriminate. }
  destruct Hx as [Huniq Hiff]. split.
  - intros i j Hi Hj. apply Huniq; now apply Hholds.
  - intros Hn Hfin.
    assert (Hl : ThisLock (cell c) = LOCKED).
    { destruct (ThisLock (cell c)) eqn:El; [reflexivity|]. exfalso.
      assert (Hfree : Forall (fun s => ThisLock (before s) = UNLOCKED)
                             (map did tr)).
      { eapply unlocked_all_along;
          [exact (sched_run_chained _ _ _ _ H) | | exact El].
        eapply sched_run_always; [|exact H]. cbn [pool].
        apply Forall_forall. intros t Ht. apply repeat_spec in Ht. subst t.
        exact try_lock_writes_once. }
      destruct (Hthread 0 Hn) as (env & He & Hu).
      apply (steps_of_Forall _ 0) in Hfree. rewrite He in Hfree.
      unfold finished in Hfin. rewrite forallb_forall in Hfin.
      specialize (Hfin _ (nth_error_In _ _ Hu)).
      destruct (returned (snd (run_with env try_lock))) as [b|] eqn:Er;
        [|discriminate].
      pose proof (try_lock_wins env b Hfree Er) as ->.
      assert (E : false = LOCKED).
      { apply Hiff. exists 0. apply Hholds, returned_in_pool.
        eexists. split; [exact Hu | exact Er]. }
      discriminate E. }
    split; [exact Hl|].
    destruct (proj2 Hiff Hl) as [i Hi]. exists i. now apply Hholds.
Qed.

(** Three threads; the second one takes the lock. *)
Lemma try_lock_race_witness :
  match sched_run [0; 1; 2; 1; 0; 2]
          {| cell := AtomicLock_ctor; pool := repeat try_lock 3 |} with
  | Some (tr, c) =>
      map returned (pool c) = [Some false; Some true; Some false] /\
      0 < 3 /\ finished c = true /\ ThisLock (cell c) = LOCKED
  | None => False
  end.
Proof.
  match goal with |- match ?r with _ => _ end =>
    destruct r as [[tr c]|] eqn:E; [|cbn in E; discriminate E] end.
  destruct (try_lock_race 3 _ _ _ E) as [_ Hall].
  cbn in E. injection E as <- <-.
  split; [reflexivity|]. split; [lia|]. split; [reflexivity|].
  apply Hall; [lia | reflexivity].
Defined.

(* ================================================================== *)
(** ** The result of [try_lock] *)
(* ================================================================== *)

(** X8.  What [try_lock] returns is decided by what its load and its
    compare-exchange find, whatever the other threads do: it returns
    [true] exactly when both find the lock unlocked.  When the load finds
    the lock locked the load is its only step; otherwise its steps are the
    load and the compare-exchange, and it returns [false] when another
    thread has taken the lock in between. *)
Theorem try_lock_result (l l' : AtomicLock) (env : list AtomicLock) :
  returned (snd (run_with (l :: l' :: env) try_lock))
    = Some (negb (ThisLock l) && negb (ThisLock l')) /\
  fst (run_with (l :: l' :: env) try_lock)
    = load_step l :: (if ThisLock l then [] else [cas_step l']).
Proof.
  destruct l as [[|]], l' as [[|]]; unroll; unroll;
    try (move_on env); now split.
Qed.

Lemma try_locks_held n :
  forall l, ThisLock l = LOCKED ->
  run (3 * n + 1) (try_locks n) l
    = Some (repeat (load_step l) n, l, repeat false n).
Proof.
  induction n as [|n IH]; intros [[|]] Hl; try discriminate; [reflexivity|].
  replace (3 * S n + 1) with (2 + ((3 * n + 1) + 1)) by lia.
  cbn [try_locks repeat].
  apply (run_bind try_lock _ 2 _ {| ThisLock := true |}
           [load_step {| ThisLock := true |}] {| ThisLock := true |} false);
    [reflexivity|].
  rewrite <- (app_nil_r (repeat _ n)).
  eapply run_bind; [now apply IH | reflexivity].
Qed.

(** X9.  Calls to [try_lock] in a row, with no other thread at work.  On
    a locked lock each of them returns [false] after its load and leaves
    the lock as it was.  On an unlocked lock the first one returns [true]
    and takes the lock, and each of the following ones returns [false]:
    the lock is not reentrant. *)
Theorem try_lock_again (n fuel : nat) (l : AtomicLock) :
  3 * n + 4 < fuel ->
  (ThisLock l = LOCKED ->
   run fuel (try_locks n) l = Some (repeat (load_step l) n, l, repeat false n)) /\
  (ThisLock l = UNLOCKED ->
   run fuel (try_locks (S n)) l
     = Some (load_step l :: acquire_step
               :: repeat (load_step {| ThisLock := LOCKED |}) n,
             {| ThisLock := LOCKED |}, true :: repeat false n)).
Proof.
  intros Hf. split; intros Hl.
  - apply (run_more (3 * n + 1)); [now apply try_locks_held | lia].
  - destruct l as [[|]]; [discriminate|].
    apply (run_more (3 + ((3 * n + 1) + 1))); [|lia].
    cbn [try_locks].
    apply (run_bind try_lock _ 3 _ {| ThisLock := false |}
             [load_step {| ThisLock := false |}; acquire_step]
             {| ThisLock := true |} true);
      [reflexivity|].
    rewrite <- (app_nil_r (repeat _ n)).
    eapply run_bind; [now apply try_locks_held | reflexivity].
Qed.

Lemma try_lock_again_witness :
  3 * 2 + 4 < 11 /\
  run 11 (try_locks 3) AtomicLock_ctor
    = Some ([ load_step {| ThisLock := UNLOCKED |}; acquire_step;
              load_step {| ThisLock := LOCKED |};
              load_step {| ThisLock := LOCKED |} ],
            {| ThisLock := LOCKED |}, [true; false; false]).
Proof.
  split; [lia|].
  destruct (try_lock_again 2 11 AtomicLock_ctor) as [_ H]; [lia|].
  apply H. reflexivity.
Defined.

(* ================================================================== *)
(** ** No fairness *)
(* ================================================================== *)

Lemma sched_run_app {R} s1 s2 :
  forall (c : config R) tr1 c1 tr2 c2,
  sched_run s1 c = Some (tr1, c1) ->
  sched_run s2 c1 = Some (tr2, c2) ->
  sched_run (s1 ++ s2) c = Some (tr1 ++ tr2, c2).
Proof.
  induction s1 as [|i s1 IH]; intros c tr1 c1 tr2 c2 H1 H2.
  - injection H1 as <- <-. exact H2.
  - apply sched_run_cons in H1. destruct H1 as (e & c' & tr' & Hs & Hr & ->).
    cbn [app sched_run]. rewrite Hs. now rewrite (IH _ _ _ _ _ Hr H2).
Qed.

Lemma steps_of_app i tr1 tr2 :
  steps_of i (tr1 ++ tr2) = steps_of i tr1 ++ steps_of i tr2.
Proof. unfold steps_of. now rewrite filter_app, map_app. Qed.

Lemma starving_round_again :
  exists tr,
    sched_run starving_round starving = Some (tr, starving) /\
    steps_of 0 tr = [ load_step {| ThisLock := LOCKED |};
                      idle AYield {| ThisLock := LOCKED |};
                      idle ALoop {| ThisLock := LOCKED |} ] /\
    steps_of 1 tr = [ load_step {| ThisLock := UNLOCKED |}; acquire_step;
                      store_step {| ThisLock := LOCKED |};
                      idle ALoop {| ThisLock := UNLOCKED |} ].
Proof.
  eexists. split; [cbn; reflexivity|]. split; reflexivity.
Qed.

(** X10.  The lock is not fair.  A thread calls [lock] on a new lock
    beside a thread that takes and releases the lock again and again.  For
    every [n] there is an interleaving in which the second thread takes the
    lock [n] times, while the first goes [n] times round its loop, finds
    the lock locked at each of its loads and is back at the start of
    [lock], without the lock. *)
Theorem lock_is_not_fair (n : nat) :
  exists tr,
    sched_run (concat (repeat starving_round n)) starving
      = Some (tr, starving) /\
    steps_of 0 tr
      = concat (repeat [ load_step {| ThisLock := LOCKED |};
                         idle AYield {| ThisLock := LOCKED |};
                         idle ALoop {| ThisLock := LOCKED |} ] n) /\
    steps_of 1 tr
      = concat (repeat [ load_step {| ThisLock := UNLOCKED |}; acquire_step;
                         store_step {| ThisLock := LOCKED |};
                         idle ALoop {| ThisLock := UNLOCKED |} ] n) /\
    map returned (pool starving) = [None; None].
Proof.
  induction n as [|n (tr & Hrun & H0 & H1 & Hret)].
  - exists []. now repeat split.
  - destruct starving_round_again as (tr1 & Hrun1 & H01 & H11).
    exists (tr1 ++ tr). cbn [repeat concat].
    split; [exact (sched_run_app _ _ _ _ _ _ _ Hrun1 Hrun)|].
    rewrite !steps_of_app, H0, H1, H01, H11. now repeat split.
Qed.
